(** * exportify: the aggregation and graph engine of [visualize.py]

    A shallow embedding of [get_statistics] and [get_graph_data] and the
    properties of their results.

    Conventions of the embedding.
    - A Python [str] is the list of its code points ([pystr]).
    - The loaded data is a list of JSON objects, the track records; only the
      keys the two routes read are kept, each one absent ([None]) or bound
      to a JSON scalar ([pyval]): null, a boolean, an integer or a string.
      Numbers with a fraction (so a fractional [duration_minutes]) and
      nested arrays or objects are outside the model.
    - A [dict] is an association list in insertion order (the order
      [sorted] starts from), a [set] is a [gset].
    - A raised exception is the [Raise] branch of [result].
    - A true division is the exact quotient in [Q], or the exception when
      the divisor is 0; the final [round(_, n)] of the float is not
      modelled.
    - Set iteration follows [elements]; no property depends on the order. *)

From Stdlib Require Import ZArith QArith_base String Ascii.
From stdpp Require Import base list gmap sorting pretty.

#[local] Set Warnings "-clear-no-such-hyp".
Close Scope Q_scope.
Local Open Scope Z_scope.

(** ** Python strings *)

Definition pystr := list N.

(** A literal of the source, as code points. *)
Definition lit (s : string) : pystr :=
  N_of_ascii <$> list_ascii_of_string s.

(** [str.isspace] on one code point: the interpreter's whitespace table. *)
Definition isspace (c : N) : bool :=
  ((9 <=? c) && (c <=? 13) || (28 <=? c) && (c <=? 32)
   || (c =? 133) || (c =? 160) || (c =? 5760)
   || (8192 <=? c) && (c <=? 8202)
   || (c =? 8232) || (c =? 8233) || (c =? 8239) || (c =? 8287)
   || (c =? 12288))%N.

Fixpoint lstrip (s : pystr) : pystr :=
  match s with
  | c :: s' => if isspace c then lstrip s' else s
  | [] => []
  end.

Definition rstrip (s : pystr) : pystr := rev (lstrip (rev s)).

(** [s.strip()] *)
Definition strip (s : pystr) : pystr := rstrip (lstrip s).

Fixpoint starts_with (sep s : pystr) : bool :=
  match sep, s with
  | [], _ => true
  | a :: sep', b :: s' => (a =? b)%N && starts_with sep' s'
  | _ :: _, [] => false
  end.

(** [sep in s] *)
Fixpoint contains (sep s : pystr) : bool :=
  starts_with sep s
  || match s with [] => false | _ :: s' => contains sep s' end.

Definition push (c : N) (l : list pystr) : list pystr :=
  match l with
  | [] => [[c]]
  | t :: r => (c :: t) :: r
  end.

(** Left-to-right scan for non-overlapping occurrences of [sep]; [skip]
    counts the code points of a matched separator still to be passed. *)
Fixpoint split_go (sep : pystr) (skip : nat) (s : pystr) : list pystr :=
  match s with
  | [] => [[]]
  | c :: s' =>
      match skip with
      | S k => split_go sep k s'
      | O =>
          if starts_with sep s
          then [] :: split_go sep (length sep - 1) s'
          else push c (split_go sep 0 s')
      end
  end.

(** [s.split(sep)] for a non-empty [sep] (the source only passes the
    two-character literals below). *)
Definition split (sep s : pystr) : list pystr := split_go sep 0 s.

Definition comma_sep : pystr := lit ", ".
Definition semi_sep : pystr := lit "; ".

(** ** JSON values and track records *)

Inductive pyval :=
| PNone
| PBool (b : bool)
| PInt (z : Z)
| PStr (s : pystr).

#[global] Instance pyval_eq_dec : EqDecision pyval.
Proof. solve_decision. Defined.

Record song := mkSong {
  artist_names : option pyval;
  album_name : option pyval;
  album_release_date : option pyval;
  duration_ms : option pyval;
  duration_minutes : option pyval;
  popularity : option pyval;
  explicit : option pyval
}.

Inductive exn :=
| KeyError (key : string)
| TypeError
| AttributeError
| ZeroDivisionError.

Inductive result (A : Type) :=
| Ok (a : A)
| Raise (e : exn).
Arguments Ok {A} a.
Arguments Raise {A} e.

#[global] Instance exn_eq_dec : EqDecision exn.
Proof. solve_decision. Defined.

#[global] Instance result_eq_dec `{EqDecision A} : EqDecision (result A).
Proof. solve_decision. Defined.

#[global] Instance result_ret : MRet result := λ A a, Ok a.
#[global] Instance result_bind : MBind result := λ A B k m,
  match m with
  | Ok a => k a
  | Raise e => Raise e
  end.

Fixpoint mapM {A B} (f : A → result B) (l : list A) : result (list B) :=
  match l with
  | [] => Ok []
  | a :: l' => b ← f a; bs ← mapM f l'; Ok (b :: bs)
  end.

(** Truth value of an object, as [if x] and [not x] test it. *)
Definition truthy (v : pyval) : bool :=
  match v with
  | PNone => false
  | PBool b => b
  | PInt z => negb (z =? 0)
  | PStr s => negb (bool_decide (s = []))
  end.

Definition nonempty (s : pystr) : bool := truthy (PStr s).

(** [str(v)] *)
Definition py_str (v : pyval) : pystr :=
  match v with
  | PNone => lit "None"
  | PBool true => lit "True"
  | PBool false => lit "False"
  | PInt z => lit (pretty z)
  | PStr s => s
  end.

(** [d.get(key, default)] on a record field. *)
Definition get (field : option pyval) (default : pyval) : pyval :=
  match field with
  | Some v => v
  | None => default
  end.

(** [d[key]] on a record field. *)
Definition item (key : string) (field : option pyval) : result pyval :=
  match field with
  | Some v => Ok v
  | None => Raise (KeyError key)
  end.

(** [sum(xs)]: starts from the integer 0 and adds left to right; a boolean
    counts as 0 or 1, [None] and strings make [+] raise. *)
Definition as_number (v : pyval) : result Z :=
  match v with
  | PInt z => Ok z
  | PBool b => Ok (if b then 1 else 0)
  | PNone | PStr _ => Raise TypeError
  end.

Fixpoint sum_from (acc : Z) (xs : list pyval) : result Z :=
  match xs with
  | [] => Ok acc
  | v :: xs' => z ← as_number v; sum_from (acc + z) xs'
  end.

Definition py_sum (xs : list pyval) : result Z := sum_from 0 xs.

(** [a / b] on integers: the exact quotient, or the exception for [b = 0]. *)
Definition true_div (a b : Z) : result Q :=
  if b =? 0 then Raise ZeroDivisionError else Ok (Qmake a (Z.to_pos b)).

Fixpoint foldM {A S} (f : S → A → result S) (s : S) (l : list A) : result S :=
  match l with
  | [] => Ok s
  | a :: l' => s' ← f s a; foldM f s' l'
  end.

(** ** Dictionaries with string keys, in insertion order *)

Section Dict.
Context {V : Type}.

Definition dict := list (pystr * V).

(** [k in d] *)
Definition dict_mem (k : pystr) (d : dict) : bool :=
  bool_decide (k ∈ d.*1).

(** [d[k] = v] *)
Fixpoint dict_set (k : pystr) (v : V) (d : dict) : dict :=
  match d with
  | [] => [(k, v)]
  | (k', v') :: d' =>
      if decide (k = k') then (k', v) :: d' else (k', v') :: dict_set k v d'
  end.

(** [d[k]] mutated in place by [f] (for a key that is present). *)
Fixpoint dict_alter (f : V → V) (k : pystr) (d : dict) : dict :=
  match d with
  | [] => []
  | (k', v') :: d' =>
      if decide (k = k') then (k', f v') :: d' else (k', v') :: dict_alter f k d'
  end.

(** [d.get(k)] *)
Fixpoint dict_get (k : pystr) (d : dict) : option V :=
  match d with
  | [] => None
  | (k', v') :: d' => if decide (k = k') then Some v' else dict_get k d'
  end.

(** [if k not in d: d[k] = v0] *)
Definition dict_setdefault (k : pystr) (v0 : V) (d : dict) : dict :=
  if dict_mem k d then d else dict_set k v0 d.
End Dict.
Arguments dict : clear implicits.

(** ** Ranking: [sorted(items, key=..., reverse=True)[:K]] *)

Section Ranking.
Context {A : Type} (key : A → nat).

Fixpoint insert_desc (x : A) (l : list A) : list A :=
  match l with
  | [] => [x]
  | y :: l' =>
      if (key x <? key y)%nat then y :: insert_desc x l' else x :: l
  end.

(** [sorted(l, key=key, reverse=True)]: descending, and stable also when
    reversed (equal keys keep the order of [l]). *)
Definition sorted_desc (l : list A) : list A := foldr insert_desc [] l.

Definition top_k (K : nat) (l : list A) : list A := take K (sorted_desc l).

(** The order of a ranking: no entry is followed by one of a larger key. *)
Definition desc (x y : A) : Prop := (key y ≤ key x)%nat.
End Ranking.

(** ** The graph payload *)

Inductive kind := artist | album.

#[global] Instance kind_eq_dec : EqDecision kind.
Proof. solve_decision. Defined.

Module Node.
Record t := mk {
  id : pystr;
  name : pystr;
  type : kind;
  size : Z;
  popularity : Q
}.
End Node.

Module Link.
Record t := mk {
  source : pystr;
  target : pystr;
  value : Z
}.
End Link.

Module Stats.
Record t := mk {
  total_nodes : nat;
  total_links : nat;
  artists : nat;
  albums : nat
}.
End Stats.

Module Payload.
Record t := mk {
  nodes : list Node.t;
  links : list Link.t;
  stats : Stats.t
}.
End Payload.

(** What the route returns: the payload (status 200), or the body of the
    [except] branch (status 500). *)
Inductive response :=
| Json200 (p : Payload.t)
| Json500 (error : exn) (nodes : list Node.t) (links : list Link.t).

(** ** [get_graph_data]: artist groups (lines 120-144) *)

(** Lines 130-135. *)
Definition split_artists (t : pystr) : list pystr :=
  if contains comma_sep t then strip <$> split comma_sep t
  else if contains semi_sep t then strip <$> split semi_sep t
  else [strip t].

(** Lines 139-141 and 187-189: the names a loop over [artists] acts on. *)
Definition kept (artists : list pystr) : list pystr :=
  omap (λ a, if nonempty a && nonempty (strip a) then Some (strip a) else None)
       artists.

(** Lines 123-141: the names under which the first loop files a song. *)
Definition song_artists (s : song) : list pystr :=
  let names := get (artist_names s) (PStr []) in
  if negb (truthy names) then []
  else
    kept match names with
         | PStr t => split_artists t
         | v => [py_str v]
         end.

(** Lines 142-144. *)
Definition file_song (s : song) (artist_songs : dict (list song)) (a : pystr)
  : dict (list song) :=
  dict_alter (λ songs, songs ++ [s]) a (dict_setdefault a [] artist_songs).

Definition group_artists (data : list song) : dict (list song) :=
  foldl (λ artist_songs s, foldl (file_song s) artist_songs (song_artists s))
        [] data.

(** ** [get_graph_data]: artist nodes (lines 146-158) *)

Record builder := mkBuilder {
  b_nodes : list Node.t;
  b_links : list Link.t;
  b_node_ids : gset pystr
}.

Definition artist_id (a : pystr) : pystr := lit "artist_" ++ a.
Definition album_id (a : pystr) : pystr := lit "album_" ++ a.

Definition song_popularity (s : song) : pyval := get (popularity s) (PInt 0).

(** [sum(s.get('popularity', 0) for s in songs) / len(songs)] *)
Definition mean_popularity (songs : list song) : result Q :=
  total ← py_sum (song_popularity <$> songs);
  true_div total (Z.of_nat (length songs)).

Definition sorted_artists (data : list song) : list (pystr * list song) :=
  top_k (λ x, length x.2) 50 (group_artists data).

Definition artist_size (songs : list song) : Z :=
  Z.max 5 (Z.min (Z.of_nat (length songs) * 2) 30).

Definition artist_node (a : pystr) (songs : list song) : result Node.t :=
  avg_popularity ← (if bool_decide (songs = []) then Ok 0%Q
                    else mean_popularity songs);
  Ok (Node.mk (artist_id a) a artist (artist_size songs) avg_popularity).

Definition add_artist (b : builder) (x : pystr * list song) : result builder :=
  n ← artist_node x.1 x.2;
  Ok (mkBuilder (b_nodes b ++ [n]) (b_links b) ({[artist_id x.1]} ∪ b_node_ids b)).

(** ** [get_graph_data]: album groups (lines 161-190) *)

Record album_info := mkInfo {
  info_artists : gset pystr;
  info_songs : list song
}.

Definition unknown_album : pystr := lit "Unknown Album".

(** Lines 163-167: the key a song is grouped under; [.strip()] on a value
    that is no string raises. *)
Definition album_key (s : song) : result pystr :=
  let name := get (album_name s) (PStr unknown_album) in
  name' ← (if negb (truthy name) then Ok unknown_album
           else match name with
                | PStr t =>
                    Ok (if bool_decide (strip t = []) then unknown_album else t)
                | _ => Raise AttributeError
                end);
  Ok (strip name').

(** Lines 176-189: the names the second loop adds to the album's set. *)
Definition album_artists (s : song) : list pystr :=
  kept match get (artist_names s) (PStr []) with
       | PStr t =>
           if contains comma_sep t then strip <$> split comma_sep t
           else if contains semi_sep t then strip <$> split semi_sep t
           else if nonempty (strip t) then [strip t] else []
       | v => [py_str v]
       end.

Definition add_to_album (album_data : dict album_info) (s : song)
  : result (dict album_info) :=
  k ← album_key s;
  let d := dict_setdefault k (mkInfo ∅ []) album_data in
  let d := foldl (λ d a, dict_alter
                           (λ i, mkInfo ({[a]} ∪ info_artists i) (info_songs i))
                           k d)
                 d (album_artists s) in
  Ok (dict_alter (λ i, mkInfo (info_artists i) (info_songs i ++ [s])) k d).

Definition group_albums (data : list song) : result (dict album_info) :=
  foldM add_to_album [] data.

(** ** [get_graph_data]: album nodes and links (lines 192-219) *)

Definition sorted_albums (album_data : dict album_info)
  : list (pystr * album_info) :=
  top_k (λ x, length (info_songs x.2)) 40 album_data.

Definition album_size (songs : list song) : Z :=
  Z.max 5 (Z.min (Z.of_nat (length songs) + 5) 25).

(** [album[:50] + '...' if len(album) > 50 else album] *)
Definition display_name (a : pystr) : pystr :=
  if (50 <? length a)%nat then take 50 a ++ lit "..." else a.

(** Lines 212-219, for one artist of the album's set. *)
Definition add_link (target : pystr) (weight : Z) (b : builder) (a : pystr)
  : builder :=
  if bool_decide (artist_id a ∈ b_node_ids b)
  then mkBuilder (b_nodes b)
                 (b_links b ++ [Link.mk (artist_id a) target weight])
                 (b_node_ids b)
  else b.

(** Lines 195-219, one iteration.  The set is walked in the order
    [elements] lists it; the interpreter's order is unspecified. *)
Definition add_album (b : builder) (x : pystr * album_info) : result builder :=
  let songs := info_songs x.2 in
  if bool_decide (songs = []) then Ok b
  else
    avg_pop ← mean_popularity songs;
    let n := Node.mk (album_id x.1) (display_name x.1) album
                     (album_size songs) avg_pop in
    let b := mkBuilder (b_nodes b ++ [n]) (b_links b)
                       ({[album_id x.1]} ∪ b_node_ids b) in
    Ok (foldl (add_link (album_id x.1) (Z.of_nat (length songs))) b
              (elements (info_artists x.2))).

(** ** [get_graph_data] *)

Definition count_type (k : kind) (ns : list Node.t) : nat :=
  length (filter (λ n, Node.type n = k) ns).

(** The body of the [try] block, on the loaded [data]. *)
Definition graph_body (data : list song) : result Payload.t :=
  b ← foldM add_artist (mkBuilder [] [] ∅) (sorted_artists data);
  album_data ← group_albums data;
  b ← foldM add_album b (sorted_albums album_data);
  Ok (Payload.mk (b_nodes b) (b_links b)
        (Stats.mk (length (b_nodes b)) (length (b_links b))
                  (count_type artist (b_nodes b))
                  (count_type album (b_nodes b)))).

Definition get_graph_data (data : list song) : response :=
  match graph_body data with
  | Ok p => Json200 p
  | Raise e => Json500 e [] []
  end.

(** ** [get_statistics] *)

(** [a == b] on scalars, the equality dictionary keys are matched with
    ([True == 1] and [False == 0]). *)
Definition py_eqb (a b : pyval) : bool :=
  match a, b with
  | PNone, PNone => true
  | PStr s, PStr t => bool_decide (s = t)
  | (PInt _ | PBool _), (PInt _ | PBool _) =>
      match as_number a, as_number b with
      | Ok x, Ok y => x =? y
      | _, _ => false
      end
  | _, _ => false
  end.

(** [Counter]: [c[k] = c.get(k, 0) + 1]; a key already present keeps its
    place and its first object. *)
Fixpoint counter_add (k : pyval) (c : list (pyval * nat)) : list (pyval * nat) :=
  match c with
  | [] => [(k, 1%nat)]
  | (k', n) :: c' =>
      if py_eqb k k' then (k', S n) :: c' else (k', n) :: counter_add k c'
  end.

Definition Counter (xs : list pyval) : list (pyval * nat) :=
  foldl (λ c k, counter_add k c) [] xs.

(** [c.most_common(n)]: the [n] largest counts, first-seen order among
    equal counts. *)
Definition most_common (n : nat) (c : list (pyval * nat)) : list (pyval * nat) :=
  top_k snd n c.

(** [sum(song[key] for song in data)] *)
Fixpoint sum_items (key : string) (field : song → option pyval)
    (acc : Z) (data : list song) : result Z :=
  match data with
  | [] => Ok acc
  | s :: data' =>
      v ← item key (field s); z ← as_number v;
      sum_items key field (acc + z) data'
  end.

(** [sum(1 for song in data if song['explicit'])] *)
Fixpoint count_explicit (acc : nat) (data : list song) : result nat :=
  match data with
  | [] => Ok acc
  | s :: data' =>
      v ← item "explicit" (explicit s);
      count_explicit (if truthy v then S acc else acc) data'
  end.

(** Lines 41-43. *)
Definition stat_artists (s : song) : result (list pyval) :=
  v ← item "artist_names" (artist_names s);
  Ok match v with
     | PStr t => PStr <$> split comma_sep t
     | _ => [v]
     end.

Definition all_artists (data : list song) : result (list pyval) :=
  foldM (λ acc s, artists ← stat_artists s; Ok (acc ++ artists)) [] data.

(** Lines 54-57, one record. *)
Definition release_year (s : song) : result (list pystr) :=
  v ← item "album_release_date" (album_release_date s);
  if truthy v then
    match v with
    | PStr t => Ok [take 4 t]
    | _ => Raise TypeError
    end
  else Ok [].

Fixpoint pystr_ltb (a b : pystr) : bool :=
  match a, b with
  | _, [] => false
  | [], _ :: _ => true
  | x :: a', y :: b' => (x <? y)%N || (x =? y)%N && pystr_ltb a' b'
  end.

(** Order of the tuples [(decade, count)]. *)
Definition entry_ltb (x y : pystr * nat) : bool :=
  pystr_ltb x.1 y.1 || bool_decide (x.1 = y.1) && (x.2 <? y.2)%nat.

Fixpoint insert_asc (x : pystr * nat) (l : list (pystr * nat)) :=
  match l with
  | [] => [x]
  | y :: l' => if entry_ltb y x then y :: insert_asc x l' else x :: l
  end.

(** [sorted(decades.items())] *)
Definition sorted_items (l : list (pystr * nat)) : list (pystr * nat) :=
  foldr insert_asc [] l.

(** [pop <= n] *)
Definition py_le (v : pyval) (n : Z) : result bool :=
  z ← as_number v; Ok (z <=? n).

Definition popularity_ranges : dict nat :=
  [(lit "0-20", 0); (lit "21-40", 0); (lit "41-60", 0); (lit "61-80", 0);
   (lit "81-100", 0)]%nat.

(** Lines 80-90. *)
Definition bucket (pop : pyval) : result pystr :=
  c ← py_le pop 20; if c : bool then Ok (lit "0-20") else
  c ← py_le pop 40; if c : bool then Ok (lit "21-40") else
  c ← py_le pop 60; if c : bool then Ok (lit "41-60") else
  c ← py_le pop 80; if c : bool then Ok (lit "61-80") else
  Ok (lit "81-100").

Definition count_popularity (ranges : dict nat) (s : song) : result (dict nat) :=
  pop ← item "popularity" (popularity s);
  k ← bucket pop;
  Ok (dict_alter S k ranges).

Definition popularity_histogram (data : list song) : result (dict nat) :=
  foldM count_popularity popularity_ranges data.

Module Statistics.
Record t := mk {
  total_songs : nat;
  total_hours : Q;
  avg_popularity : Q;
  avg_duration_min : Q;
  explicit_count : nat;
  explicit_percentage : Q;
  total_artists : nat;
  total_albums : nat;
  top_artists : list (pyval * nat);
  top_albums : list (pyval * nat);
  decade_distribution : list (pystr * nat);
  popularity_distribution : list (pystr * nat)
}.
End Statistics.

Section Statistics.
(** The builtin [int] on a string: the integer read, or [None] where it
    raises [ValueError]. *)
Variable py_int : pystr → option Z.

(** Lines 60-66: a year that does not parse is passed over. *)
Definition count_decade (decades : dict nat) (year : pystr) : dict nat :=
  match py_int year with
  | Some y =>
      let decade := y / 10 * 10 in
      let k := lit (pretty decade) ++ lit "s" in
      dict_alter S k (dict_setdefault k 0%nat decades)
  | None => decades
  end.

Definition get_statistics (data : list song) : result Statistics.t :=
  let total_songs := length data in
  total_duration_ms ← sum_items "duration_ms" duration_ms 0 data;
  total_hours ← true_div total_duration_ms (1000 * 60 * 60);
  avg_popularity ←
    (if (0 <? total_songs)%nat
     then total ← sum_items "popularity" popularity 0 data;
          true_div total (Z.of_nat total_songs)
     else Ok 0%Q);
  avg_duration_min ←
    (if (0 <? total_songs)%nat
     then total ← sum_items "duration_minutes" duration_minutes 0 data;
          true_div total (Z.of_nat total_songs)
     else Ok 0%Q);
  explicit_count ← count_explicit 0 data;
  artists ← all_artists data;
  let artist_counts := Counter artists in
  let top_artists := most_common 10 artist_counts in
  albums ← mapM (λ s, item "album_name" (album_name s)) data;
  let album_counts := Counter albums in
  let top_albums := most_common 10 album_counts in
  years ← mapM release_year data;
  let decades := foldl count_decade [] (concat years) in
  let decade_distribution := sorted_items decades in
  ranges ← popularity_histogram data;
  explicit_percentage ←
    (if (0 <? total_songs)%nat
     then ratio ← true_div (Z.of_nat explicit_count) (Z.of_nat total_songs);
          Ok (Qmult ratio 100)
     else Ok 0%Q);
  Ok (Statistics.mk total_songs total_hours avg_popularity avg_duration_min
        explicit_count explicit_percentage (length artist_counts) (length album_counts)
        top_artists top_albums decade_distribution ranges).
End Statistics.

(** ** Group membership *)

(** Every member of an artist group is a record of the input that the
    first loop attributes to that artist, and no group is empty. *)
Definition attributed (data : list song) (x : pystr * list song) : Prop :=
  x.2 ≠ [] ∧ ∀ s, s ∈ x.2 → s ∈ data ∧ x.1 ∈ song_artists s.

(** The records and the artist names filed under an album key. *)
Definition songs_at (k : pystr) (d : dict album_info) : list song :=
  from_option info_songs [] (dict_get k d).

Definition artists_at (k : pystr) (d : dict album_info) : gset pystr :=
  from_option info_artists ∅ (dict_get k d).

(** ** The payload in closed form *)

(** The node of a retained album, given the mean of its records. *)
Definition album_node (x : pystr * album_info) (avg : Q) : Node.t :=
  Node.mk (album_id x.1) (display_name x.1) album (album_size (info_songs x.2))
          avg.

(** The links of a retained album: one for each name of its artist set
    that is among the retained artists. *)
Definition links_of (retained : list pystr) (x : pystr * album_info)
  : list Link.t :=
  (λ a, Link.mk (artist_id a) (album_id x.1) (Z.of_nat (length (info_songs x.2))))
    <$> filter (λ a, a ∈ retained) (elements (info_artists x.2)).

(** The artist ids among the node ids are those of the retained artists. *)
Definition retained_ids (retained : list pystr) (ids : gset pystr) : Prop :=
  ∀ a, artist_id a ∈ ids ↔ a ∈ retained.

(** ** The specification's normalizer *)

(** The normalizer in the words of the specification: the first delimiter
    present decides the split, tokens are trimmed, empty ones dropped. *)
Definition normalize_spec (field : pystr) : list pystr :=
  let tokens :=
    if contains comma_sep field then split comma_sep field
    else if contains semi_sep field then split semi_sep field
    else [strip field] in
  List.filter nonempty (strip <$> tokens).

(** ** Counts used in the statements *)

(** The records of [data] on album [k]. *)
Definition album_count (data : list song) (k : pystr) : nat :=
  length (filter (λ s, album_key s = Ok k) data).

(** The records of [data] on album [k] that are attributed to artist [a]. *)
Definition pair_count (data : list song) (a k : pystr) : nat :=
  length (filter (λ s, album_key s = Ok k ∧ a ∈ song_artists s) data).

(** The artist-names field is empty or blank (a missing key reads as the
    empty string). *)
Definition blank_artists (s : song) : bool :=
  match get (artist_names s) (PStr []) with
  | PStr t => forallb isspace t
  | _ => false
  end.

(** The artist-names field when it is a string. *)
Definition artist_field (s : song) : pystr :=
  match artist_names s with
  | Some (PStr t) => t
  | _ => []
  end.

(** The tokens [get_statistics] counts: every field split on ", " alone. *)
Definition comma_tokens (data : list song) : list pyval :=
  PStr <$> flat_map (λ s, split comma_sep (artist_field s)) data.

(** The top-10 artist list in the words of the specification: the records
    grouped under the names of the normalizer, the groups ranked by record
    count with K = 10. *)
Definition spec_artist_groups (data : list song) : dict (list song) :=
  foldl (λ groups s,
           foldl (file_song s) groups (normalize_spec (artist_field s)))
        [] data.

Definition spec_top_artists (data : list song) : list (pyval * nat) :=
  (λ x, (PStr x.1, length x.2))
    <$> top_k (λ x, length x.2) 10 (spec_artist_groups data).

(** [c[k]] on a [Counter]: 0 for a key that is not there. *)
Fixpoint counter_get (k : pyval) (c : list (pyval * nat)) : nat :=
  match c with
  | [] => 0
  | (k', n) :: c' => if py_eqb k k' then n else counter_get k c'
  end.

(** One representative for the keys a dictionary identifies. *)
Definition norm_key (v : pyval) : pyval :=
  match v with
  | PBool b => PInt (if b then 1 else 0)
  | _ => v
  end.

(** The popularity of a record is an integer from [lo] to [hi]. *)
Definition in_range (lo hi : Z) (s : song) : bool :=
  match popularity s with
  | Some (PInt z) => (lo <=? z) && (z <=? hi)
  | _ => false
  end.

Definition bucket_count (lo hi : Z) (data : list song) : nat :=
  length (List.filter (in_range lo hi) data).

(** The five counters, in the order of the literal on lines 71-77. *)
Definition histogram (a b c d e : nat) : dict nat :=
  [(lit "0-20", a); (lit "21-40", b); (lit "41-60", c); (lit "61-80", d);
   (lit "81-100", e)].

(** [clamp x lo hi] *)
Definition clamp (x lo hi : Z) : Z :=
  if x <? lo then lo else if hi <? x then hi else x.

(** ** Sample libraries *)

Definition track (artists album_ : string) (pop : Z) : song :=
  mkSong (Some (PStr (lit artists))) (Some (PStr (lit album_)))
         (Some (PStr (lit "2019-05-17"))) (Some (PInt 180000)) (Some (PInt 3))
         (Some (PInt pop)) (Some (PBool false)).

(** Sixty artists, one letter each from "A" on, the [i]-th with [i + 1]
    records, all on one album. *)
Definition solo (i : nat) : song :=
  mkSong (Some (PStr [N.of_nat (65 + i)])) (Some (PStr (lit "X")))
         None None None (Some (PInt 50)) None.

Definition library60 : list song :=
  flat_map (λ i, replicate (S i) (solo i)) (seq 0 60).

(** ** Definitions for the further properties *)

(** [d.get(a, [])] on the artist groups. *)
Definition group_of (a : pystr) (d : dict (list song)) : list song :=
  default [] (dict_get a d).

(** How often [a] occurs in a list of names. *)
Definition occurrences (a : pystr) (names : list pystr) : nat :=
  length (filter (λ x, x = a) names).

(** What [get_statistics] needs of a record: *)

(** an integer or a boolean under the key, *)
Definition numeric (field : option pyval) : bool :=
  match field with
  | Some (PInt _) | Some (PBool _) => true
  | _ => false
  end.

(** the key, *)
Definition present (field : option pyval) : bool :=
  match field with
  | Some _ => true
  | None => false
  end.

(** a release date that is a string or a false value. *)
Definition sliceable (field : option pyval) : bool :=
  match field with
  | Some (PStr _) => true
  | Some v => negb (truthy v)
  | None => false
  end.

Definition statistics_ready (s : song) : bool :=
  numeric (duration_ms s) && numeric (popularity s)
  && numeric (duration_minutes s) && present (explicit s)
  && present (artist_names s) && present (album_name s)
  && sliceable (album_release_date s).

(** The release date of the record gives a year that [int] reads. *)
Definition dated (py_int : pystr → option Z) (s : song) : bool :=
  match album_release_date s with
  | Some (PStr t) => nonempty t && bool_decide (is_Some (py_int (take 4 t)))
  | _ => false
  end.

(** The explicit flag of the record is a true value. *)
Definition flagged (s : song) : bool :=
  match explicit s with
  | Some v => truthy v
  | None => false
  end.

(** ** [export.py] *)

(** [sep.join(l)] on a list of strings. *)
Fixpoint join (sep : pystr) (l : list pystr) : pystr :=
  match l with
  | [] => []
  | x :: l' =>
      match l' with
      | [] => x
      | _ :: _ => x ++ sep ++ join sep l'
      end
  end.

(** [extract_song_metadata], line 71: the artist-names field of an exported
    record, from the names of the track's artists. *)
Definition artist_names_field (names : list pystr) : pystr :=
  join comma_sep names.

(** One answer of [sp.current_user_saved_tracks]: the keys ['items'] and
    ['next'] ([None] for a null link). *)
Record page (A : Type) := mkPage {
  items : list A;
  next : option pystr
}.
Arguments mkPage {A} items next.
Arguments items {A} p.
Arguments next {A} p.

Section Fetch.
Context {A : Type}.
(** The client call, by [limit] and [offset]. *)
Variable current_user_saved_tracks : nat → nat → page A.

(** The loop of [fetch_all_liked_songs] (lines 45-56); [fuel] bounds the
    number of requests, [None] is a loop that has not ended within it. *)
Fixpoint fetch_loop (fuel : nat) (liked_songs : list A) (offset : nat)
  : option (list A) :=
  match fuel with
  | O => None
  | S fuel' =>
      let results := current_user_saved_tracks 50 offset in
      if bool_decide (items results = []) then Some liked_songs
      else
        let liked_songs := liked_songs ++ items results in
        let offset := (offset + 50)%nat in
        match next results with
        | None => Some liked_songs
        | Some _ => fetch_loop fuel' liked_songs offset
        end
  end.

Definition fetch_all_liked_songs (fuel : nat) : option (list A) :=
  fetch_loop fuel [] 0.
End Fetch.

(** [main], lines 169-171: [artist_counts[artist] =
    artist_counts.get(artist, 0) + 1]. *)
Definition summary_count (artist_counts : dict nat) (artist : pystr) : dict nat :=
  dict_set artist (default 0%nat (dict_get artist artist_counts) + 1)%nat
           artist_counts.

(** [song['artist_names'].split(', ')] in [main]: a field that is no string
    has no [split]. *)
Definition summary_artists (s : song) : result (list pystr) :=
  v ← item "artist_names" (artist_names s);
  match v with
  | PStr t => Ok (split comma_sep t)
  | _ => Raise AttributeError
  end.

(** [main], lines 167-173: the top 10 artists of the summary. *)
Definition summary_top_artists (metadata_list : list song)
  : result (list (pystr * nat)) :=
  artist_counts ←
    foldM (λ counts s,
             artists ← summary_artists s; Ok (foldl summary_count counts artists))
          [] metadata_list;
  Ok (top_k snd 10 artist_counts).

(** A service that pages one library faithfully: the slice asked for, and a
    link to the next page while records remain. *)
Definition paging {A} (library : list A) (limit offset : nat) : page A :=
  mkPage (take limit (drop offset library))
         (if (offset + limit <? length library)%nat
          then Some (lit "next") else None).

(** * Properties *)

(** ** The builtins on samples *)

Example split_keeps_empty_tokens :
  split comma_sep (lit "a, , b, ") = [lit "a"; lit ""; lit "b"; lit ""].
Proof. reflexivity. Qed.

Example split_without_separator :
  split comma_sep (lit "a,b") = [lit "a,b"].
Proof. reflexivity. Qed.

Example split_leftmost_first :
  split (lit "aa") (lit "aaa") = [lit ""; lit "a"].
Proof. reflexivity. Qed.

Example strip_both_ends :
  strip (N_of_ascii <$> [" "; "009"; "a"; " "; "b"; "010"; " "]%char)
  = lit "a b".
Proof. reflexivity. Qed.

Example sorted_desc_is_stable :
  sorted_desc snd [(1, 2); (2, 5); (3, 2); (4, 5); (5, 7)]%nat
  = [(5, 7); (2, 5); (4, 5); (1, 2); (3, 2)]%nat.
Proof. reflexivity. Qed.

(** ** Strings *)

Lemma lstrip_suffix s : ∃ p, s = p ++ lstrip s.
Proof.
  induction s as [|c s [p IH]]; simpl.
  - by exists [].
  - destruct (isspace c).
    + exists (c :: p). by rewrite <- app_comm_cons, <- IH.
    + by exists [].
Qed.

Lemma lstrip_head s c t : lstrip s = c :: t → isspace c = false.
Proof.
  induction s as [|x s IH]; simpl; [done|].
  destruct (isspace x) eqn:E; [done|].
  intros [= -> _]. done.
Qed.

Lemma lstrip_fixed c t : isspace c = false → lstrip (c :: t) = c :: t.
Proof. intros H. simpl. by rewrite H. Qed.

Lemma lstrip_idemp s : lstrip (lstrip s) = lstrip s.
Proof.
  destruct (lstrip s) as [|c t] eqn:E; [done|].
  apply lstrip_fixed. by eapply lstrip_head.
Qed.

Lemma rstrip_prefix u : ∃ q, u = rstrip u ++ q.
Proof.
  unfold rstrip. destruct (lstrip_suffix (rev u)) as [p Hp].
  exists (rev p). rewrite <- rev_app_distr, <- Hp. by rewrite rev_involutive.
Qed.

Lemma rstrip_idemp u : rstrip (rstrip u) = rstrip u.
Proof. unfold rstrip. by rewrite rev_involutive, lstrip_idemp. Qed.

Lemma strip_idemp s : strip (strip s) = strip s.
Proof.
  unfold strip. set (u := lstrip s).
  assert (lstrip (rstrip u) = rstrip u) as ->; [|apply rstrip_idemp].
  destruct (rstrip u) as [|c t] eqn:E; [done|].
  apply lstrip_fixed.
  destruct (rstrip_prefix u) as [q Hq]. rewrite E in Hq.
  apply (lstrip_head s c (t ++ q)). fold u. by rewrite Hq at 1.
Qed.

Lemma lstrip_blank s : forallb isspace s = true → lstrip s = [].
Proof.
  induction s as [|c s IH]; simpl; [done|].
  intros [-> H]%andb_prop. auto.
Qed.

Lemma strip_blank s : forallb isspace s = true → strip s = [].
Proof. intros H. unfold strip. by rewrite lstrip_blank. Qed.

Lemma blank_no_delimiter c sep s :
  isspace c = false → forallb isspace s = true → contains (c :: sep) s = false.
Proof.
  intros Hc. induction s as [|x s IH]; simpl; [done|].
  intros [Hx Hs]%andb_prop. rewrite IH by done.
  destruct (N.eqb_spec c x) as [->|]; [congruence | done].
Qed.

Lemma nonempty_nil : nonempty [] = false.
Proof. done. Qed.

Lemma nonempty_spec s : nonempty s = true ↔ s ≠ [].
Proof.
  unfold nonempty; simpl. rewrite negb_true_iff, bool_decide_eq_false. done.
Qed.

(** ** The artist-name normalizer *)

Lemma kept_stripped tokens :
  kept (strip <$> tokens) = List.filter nonempty (strip <$> tokens).
Proof.
  unfold kept. induction tokens as [|t ts IH]; [done|].
  cbn [fmap list_fmap omap list_omap List.filter]. fold (fmap strip ts).
  rewrite strip_idemp, andb_diag.
  fold (omap (λ a, if nonempty a && nonempty (strip a) then Some (strip a) else None)
             (strip <$> ts)).
  rewrite IH. by destruct (nonempty (strip t)).
Qed.

Lemma split_artists_stripped t :
  ∃ tokens, split_artists t = strip <$> tokens
    ∧ tokens = (if contains comma_sep t then split comma_sep t
                else if contains semi_sep t then split semi_sep t
                else [strip t]).
Proof.
  unfold split_artists. eexists; split; [|done].
  repeat case_match; try done. simpl. by rewrite strip_idemp.
Qed.

Lemma first_pass_normalizes s field :
  artist_names s = Some (PStr field) → song_artists s = normalize_spec field.
Proof.
  intros H. unfold song_artists, normalize_spec. rewrite H. simpl.
  destruct (bool_decide (field = [])) eqn:E.
  - apply bool_decide_eq_true in E as ->. done.
  - simpl. destruct (split_artists_stripped field) as (tokens & -> & ->).
    apply kept_stripped.
Qed.

Lemma second_pass_normalizes s field :
  artist_names s = Some (PStr field) → album_artists s = normalize_spec field.
Proof.
  intros H. unfold album_artists, normalize_spec. rewrite H. simpl.
  destruct (contains comma_sep field); [apply kept_stripped|].
  destruct (contains semi_sep field); [apply kept_stripped|].
  destruct (nonempty (strip field)) eqn:E.
  - rewrite <- kept_stripped. simpl. by rewrite !strip_idemp.
  - simpl. rewrite strip_idemp. by rewrite E.
Qed.

Lemma normalize_blank field :
  forallb isspace field = true → normalize_spec field = [].
Proof.
  intros H. unfold normalize_spec.
  rewrite (blank_no_delimiter 44 [32%N] field eq_refl H : contains comma_sep field = false).
  rewrite (blank_no_delimiter 59 [32%N] field eq_refl H : contains semi_sep field = false).
  simpl. by rewrite strip_idemp, strip_blank.
Qed.

(** C3. For a string artist-names field the first loop of [get_graph_data]
    files the song under exactly the names of the normalizer: split on ", "
    when present, else on "; " when present, else the whole trimmed field;
    tokens trimmed, empty tokens dropped.  An empty or blank field gives no
    name, and the song changes no artist group.  "Artist; Other" gives
    ["Artist"; "Other"], "Solo Name" gives ["Solo Name"], "" gives []. *)
Theorem artist_field_normalized (s : song) (field : pystr)
    (Hfield : artist_names s = Some (PStr field)) :
  song_artists s = normalize_spec field
  ∧ (forallb isspace field = true →
     song_artists s = []
     ∧ ∀ artist_songs, foldl (file_song s) artist_songs (song_artists s) = artist_songs)
  ∧ (field = lit "Artist; Other" → song_artists s = [lit "Artist"; lit "Other"])
  ∧ (field = lit "Solo Name" → song_artists s = [lit "Solo Name"])
  ∧ (field = lit "" → song_artists s = []).
Proof.
  pose proof (first_pass_normalizes s field Hfield) as Hn.
  split; [done|]. rewrite Hn. split; [|by repeat split; intros ->].
  intros Hb. rewrite normalize_blank by done. done.
Qed.

Lemma artist_field_normalized_witness :
  song_artists (mkSong (Some (PStr (lit "  "))) None None None None None None) = [].
Proof.
  pose proof (artist_field_normalized
                (mkSong (Some (PStr (lit "  "))) None None None None None None)
                (lit "  ") eq_refl) as (_ & Hblank & _).
  apply Hblank. reflexivity.
Defined.

(** ** Ranking *)

Section RankingFacts.
Context {A : Type} (key : A → nat).

Lemma insert_desc_perm x l : insert_desc key x l ≡ₚ x :: l.
Proof.
  induction l as [|y l IH]; simpl; [done|].
  case_match; [|done]. rewrite IH. apply perm_swap.
Qed.

Lemma sorted_desc_perm l : sorted_desc key l ≡ₚ l.
Proof.
  induction l as [|x l IH]; simpl; [done|].
  by rewrite insert_desc_perm, IH.
Qed.

Lemma insert_desc_sorted x l :
  StronglySorted (desc key) l → StronglySorted (desc key) (insert_desc key x l).
Proof.
  induction 1 as [|y l Hl IH Hy]; simpl.
  - repeat constructor.
  - destruct (Nat.ltb_spec (key x) (key y)) as [Hlt|Hge].
    + constructor; [done|].
      rewrite insert_desc_perm. constructor; [unfold desc; lia | done].
    + constructor; [by constructor|].
      constructor; [done|].
      eapply Forall_impl; [exact Hy|]. unfold desc. intros; simpl in *; lia.
Qed.

Lemma sorted_desc_sorted l : StronglySorted (desc key) (sorted_desc key l).
Proof.
  induction l; simpl; [constructor | by apply insert_desc_sorted].
Qed.

Lemma insert_desc_stable n x l :
  filter (λ y, key y = n) (insert_desc key x l)
  = filter (λ y, key y = n) (x :: l).
Proof.
  induction l as [|y l IH]; simpl; [done|].
  destruct (Nat.ltb_spec (key x) (key y)) as [Hlt|Hge]; [|done].
  rewrite filter_cons, IH, !filter_cons.
  repeat case_decide; try done; lia.
Qed.

Lemma sorted_desc_stable n l :
  filter (λ y, key y = n) (sorted_desc key l) = filter (λ y, key y = n) l.
Proof.
  induction l as [|x l IH]; simpl; [done|].
  by rewrite insert_desc_stable, !filter_cons, IH.
Qed.

Lemma top_k_length K l : length (top_k key K l) = (K `min` length l)%nat.
Proof.
  unfold top_k. by rewrite length_take, (Permutation_length (sorted_desc_perm l)).
Qed.

Lemma top_k_subseteq K l : top_k key K l ⊆ l.
Proof.
  intros x Hx. rewrite <- (sorted_desc_perm l).
  unfold top_k in Hx. by eapply subseteq_take.
Qed.

(** The ranking is the first [K] entries of the one list that holds the
    entries of [l], in descending order of [key], entries of equal key in
    the order of [l]. *)
Lemma top_k_spec K l :
  ∃ rest,
    top_k key K l ++ rest ≡ₚ l
    ∧ StronglySorted (desc key) (top_k key K l ++ rest)
    ∧ (∀ n, filter (λ y, key y = n) (top_k key K l ++ rest)
            = filter (λ y, key y = n) l)
    ∧ length (top_k key K l) = (K `min` length l)%nat.
Proof.
  exists (drop K (sorted_desc key l)). unfold top_k at 1 2 3.
  rewrite take_drop. split_and!.
  - apply sorted_desc_perm.
  - apply sorted_desc_sorted.
  - intros n. apply sorted_desc_stable.
  - apply top_k_length.
Qed.
End RankingFacts.

(** ** Dictionaries *)

Section DictFacts.
Context {V : Type}.
Implicit Types (d : dict V) (k : pystr).

Lemma dict_mem_true k d : dict_mem k d = true ↔ k ∈ d.*1.
Proof. unfold dict_mem. apply bool_decide_eq_true. Qed.

Lemma dict_get_None k d : dict_get k d = None ↔ k ∉ d.*1.
Proof.
  induction d as [|[k' v'] d IH]; simpl.
  - split; [intros _; apply not_elem_of_nil | done].
  - rewrite not_elem_of_cons. case_decide as E.
    + split; [done | intros [? _]; done].
    + rewrite IH. split; [by split | by intros [_ ?]].
Qed.

Lemma dict_get_elem_of k v d : dict_get k d = Some v → (k, v) ∈ d.
Proof.
  induction d as [|[k' v'] d IH]; simpl; [done|].
  case_decide as E.
  - intros [= ->]. subst. left.
  - intros. right. auto.
Qed.

Lemma elem_of_dict_get k v d : NoDup d.*1 → (k, v) ∈ d → dict_get k d = Some v.
Proof.
  induction d as [|[k' v'] d IH]; simpl.
  - intros _ []%elem_of_nil.
  - intros [Hk Hd]%NoDup_cons [[= -> ->]|Hin]%elem_of_cons.
    + by rewrite decide_True.
    + rewrite decide_False; [auto|].
      intros ->. apply Hk. apply list_elem_of_fmap. by exists (k', v).
Qed.

Lemma dict_alter_keys f k d : (dict_alter f k d).*1 = d.*1.
Proof.
  induction d as [|[k' v'] d IH]; simpl; [done|].
  case_decide; csimpl; by rewrite ?IH.
Qed.

Lemma dict_set_fresh k v d : k ∉ d.*1 → dict_set k v d = d ++ [(k, v)].
Proof.
  induction d as [|[k' v'] d IH]; simpl; [done|].
  intros [? ?]%not_elem_of_cons. rewrite decide_False by done. by rewrite IH.
Qed.

Lemma dict_setdefault_unfold k v d :
  dict_setdefault k v d = if decide (k ∈ d.*1) then d else d ++ [(k, v)].
Proof.
  unfold dict_setdefault, dict_mem. case_bool_decide.
  - by rewrite decide_True.
  - rewrite decide_False by done. by apply dict_set_fresh.
Qed.

Lemma dict_setdefault_keys k v d :
  (dict_setdefault k v d).*1 = if decide (k ∈ d.*1) then d.*1 else d.*1 ++ [k].
Proof.
  rewrite dict_setdefault_unfold. case_decide; [done|]. by rewrite fmap_app.
Qed.

Lemma dict_setdefault_mem k v d : k ∈ (dict_setdefault k v d).*1.
Proof.
  rewrite dict_setdefault_keys. case_decide; [done|].
  apply elem_of_app. right. apply list_elem_of_singleton. done.
Qed.

Lemma dict_setdefault_NoDup k v d : NoDup d.*1 → NoDup (dict_setdefault k v d).*1.
Proof.
  intros Hd. rewrite dict_setdefault_keys. case_decide; [done|].
  apply NoDup_app. split_and!; [done| |apply NoDup_singleton].
  intros x Hx ->%list_elem_of_singleton. done.
Qed.

Lemma dict_get_app k d d' :
  dict_get k (d ++ d') = match dict_get k d with
                         | Some v => Some v
                         | None => dict_get k d'
                         end.
Proof.
  induction d as [|[k' v'] d IH]; simpl; [done|]. by case_decide.
Qed.

Lemma dict_get_setdefault k k' v d :
  dict_get k' (dict_setdefault k v d)
  = if decide (k' = k) then Some (default v (dict_get k d)) else dict_get k' d.
Proof.
  rewrite dict_setdefault_unfold. case_decide as Hin.
  - case_decide as E; [subst|done].
    destruct (dict_get k d) eqn:G; [done|]. by apply dict_get_None in G.
  - rewrite dict_get_app. simpl.
    case_decide as E; [subst|].
    + apply dict_get_None in Hin. by rewrite Hin.
    + by destruct (dict_get k' d).
Qed.

Lemma dict_get_alter f k k' d :
  dict_get k' (dict_alter f k d)
  = if decide (k' = k) then f <$> dict_get k d else dict_get k' d.
Proof.
  induction d as [|[k0 v0] d IH]; simpl; [by case_decide|].
  repeat (case_decide; simpl; subst); try done; try congruence.
Qed.
End DictFacts.

Section DictInvariants.
Context {V : Type} (P Q : pystr * V → Prop).
Implicit Types (d : dict V) (k : pystr).

Lemma dict_alter_Forall f k d :
  NoDup d.*1 →
  (∀ v, P (k, v) → Q (k, f v)) → (∀ x, x.1 ≠ k → P x → Q x) →
  Forall P d → Forall Q (dict_alter f k d).
Proof.
  intros Hnd Hf HPQ. induction 1 as [|[k' v'] d Hx Hd IH]; simpl; [done|].
  csimpl in Hnd. apply NoDup_cons in Hnd as [Hk' Hnd].
  case_decide; subst; constructor; auto.
  apply Forall_forall. intros [k0 v0] H0. apply HPQ.
  - simpl. intros ->. apply Hk'. apply list_elem_of_fmap. by exists (k', v0).
  - by eapply Forall_forall in Hd.
Qed.

Lemma dict_setdefault_Forall k v d :
  P (k, v) → Forall P d → Forall P (dict_setdefault k v d).
Proof.
  intros Hv Hd. rewrite dict_setdefault_unfold. case_decide; [done|].
  apply Forall_app. split; [done|]. by constructor.
Qed.
End DictInvariants.

(** ** Artist groups *)

Lemma file_song_NoDup s d a : NoDup d.*1 → NoDup (file_song s d a).*1.
Proof.
  intros Hd. unfold file_song. rewrite dict_alter_keys.
  by apply dict_setdefault_NoDup.
Qed.

Lemma file_songs_NoDup s names d :
  NoDup d.*1 → NoDup (foldl (file_song s) d names).*1.
Proof.
  revert d. induction names as [|a names IH]; simpl; [done|].
  intros d Hd. apply IH. by apply file_song_NoDup.
Qed.

Lemma group_artists_NoDup data : NoDup (group_artists data).*1.
Proof.
  unfold group_artists.
  assert (NoDup ([] : dict (list song)).*1) as H by constructor.
  revert H. generalize ([] : dict (list song)).
  induction data as [|s data IH]; simpl; [done|].
  intros d Hd. apply IH. by apply file_songs_NoDup.
Qed.

Lemma file_song_attributed data s d a :
  s ∈ data → a ∈ song_artists s → NoDup d.*1 →
  Forall (attributed data) d → Forall (attributed data) (file_song s d a).
Proof.
  intros Hs Ha Hnd Hd. unfold file_song.
  apply (dict_alter_Forall
           (λ x, (x.1 ≠ a → x.2 ≠ [])
                 ∧ ∀ s', s' ∈ x.2 → s' ∈ data ∧ x.1 ∈ song_artists s')).
  - by apply dict_setdefault_NoDup.
  - intros songs [_ H]. split; simpl in *; [by destruct songs|].
    intros s' [?| ->%list_elem_of_singleton]%elem_of_app; auto.
  - intros x Hx [Hne H]. split; auto.
  - apply dict_setdefault_Forall.
    + split; simpl; [done|]. by intros s' ?%elem_of_nil.
    + eapply Forall_impl; [exact Hd|]. intros x [Hne H]. by split.
Qed.

Lemma file_songs_attributed data s names d :
  s ∈ data → names ⊆ song_artists s → NoDup d.*1 →
  Forall (attributed data) d →
  Forall (attributed data) (foldl (file_song s) d names).
Proof.
  intros Hs. revert d. induction names as [|a names IH]; simpl; [done|].
  intros d Hsub Hnd Hd. apply IH.
  - intros x Hx. apply Hsub. by right.
  - by apply file_song_NoDup.
  - apply file_song_attributed; auto. apply Hsub. by left.
Qed.

Lemma group_artists_attributed data :
  Forall (attributed data) (group_artists data).
Proof.
  unfold group_artists.
  cut (∀ pre d, pre ⊆ data → NoDup d.*1 → Forall (attributed data) d →
         Forall (attributed data)
           (foldl (λ artist_songs s,
                     foldl (file_song s) artist_songs (song_artists s)) d pre)).
  { intros H. apply H; [done|constructor|constructor]. }
  induction pre as [|s pre IH]; simpl; [done|].
  intros d Hsub Hnd Hd. apply IH.
  - intros x Hx. apply Hsub. by right.
  - by apply file_songs_NoDup.
  - apply file_songs_attributed; auto. apply Hsub. by left.
Qed.

(** ** Album groups *)

Lemma add_artists_keys k names (d : dict album_info) :
  (foldl (λ d a, dict_alter
                   (λ i, mkInfo ({[a]} ∪ info_artists i) (info_songs i)) k d)
         d names).*1 = d.*1.
Proof.
  revert d. induction names as [|a names IH]; simpl; [done|].
  intros d. by rewrite IH, dict_alter_keys.
Qed.

Lemma add_artists_get k k' names (d : dict album_info) :
  dict_get k' (foldl (λ d a, dict_alter
                   (λ i, mkInfo ({[a]} ∪ info_artists i) (info_songs i)) k d)
         d names)
  = if decide (k' = k)
    then (λ i, mkInfo (list_to_set names ∪ info_artists i) (info_songs i))
           <$> dict_get k d
    else dict_get k' d.
Proof.
  revert d. induction names as [|a names IH]; intros d; simpl.
  - case_decide; [subst|done]. destruct (dict_get k d) as [[]|]; simpl; [|done].
    do 2 f_equal. set_solver.
  - rewrite IH, !dict_get_alter. case_decide; [subst|done].
    rewrite decide_True by done.
    destruct (dict_get k d) as [[]|]; simpl; [|done].
    do 2 f_equal. set_solver.
Qed.

Lemma add_to_album_keys d s d' :
  add_to_album d s = Ok d' →
  ∃ k, album_key s = Ok k
       ∧ d'.*1 = if decide (k ∈ d.*1) then d.*1 else d.*1 ++ [k].
Proof.
  unfold add_to_album. destruct (album_key s) as [k|e]; simpl; [|done].
  intros [= <-]. exists k. split; [done|].
  by rewrite dict_alter_keys, add_artists_keys, dict_setdefault_keys.
Qed.

Lemma add_to_album_get d s d' k' :
  add_to_album d s = Ok d' →
  dict_get k' d'
  = if decide (album_key s = Ok k')
    then Some (mkInfo (list_to_set (album_artists s) ∪ artists_at k' d)
                      (songs_at k' d ++ [s]))
    else dict_get k' d.
Proof.
  unfold add_to_album, songs_at, artists_at.
  destruct (album_key s) as [k|e]; simpl; [|done].
  intros [= <-]. rewrite dict_get_alter.
  destruct (decide (k' = k)) as [->|Hne].
  - rewrite add_artists_get, dict_get_setdefault, !decide_True by done.
    by destruct (dict_get k d) as [[]|].
  - rewrite decide_False by congruence.
    rewrite add_artists_get, decide_False by done.
    rewrite dict_get_setdefault, decide_False by done. done.
Qed.

Lemma group_albums_from d data d' :
  foldM add_to_album d data = Ok d' →
  (NoDup d.*1 → NoDup d'.*1)
  ∧ ∀ k,
      songs_at k d' = songs_at k d ++ filter (λ s, album_key s = Ok k) data
      ∧ (k ∈ d'.*1 ↔ k ∈ d.*1 ∨ ∃ s, s ∈ data ∧ album_key s = Ok k).
Proof.
  revert d. induction data as [|s data IH]; simpl; intros d.
  - intros [= ->]. split; [done|]. intros k. rewrite app_nil_r.
    split; [done|]. split; [auto|]. intros [?|(s & []%elem_of_nil & _)]; done.
  - destruct (add_to_album d s) as [d1|e] eqn:E; simpl; [|done].
    intros H. apply IH in H as [Hnd H].
    destruct (add_to_album_keys _ _ _ E) as (k0 & Hk0 & Hkeys).
    split.
    + intros Hd. apply Hnd. rewrite Hkeys. case_decide; [done|].
      apply NoDup_app. split_and!; [done| |apply NoDup_singleton].
      by intros x Hx ->%list_elem_of_singleton.
    + intros k. destruct (H k) as [-> ->]. split.
      * unfold songs_at at 1. rewrite (add_to_album_get _ _ _ k E).
        rewrite filter_cons. destruct (decide (album_key s = Ok k)); simpl.
        -- by rewrite <- app_assoc.
        -- done.
      * rewrite Hkeys. setoid_rewrite elem_of_cons. split.
        -- intros [Hin|(s' & Hs' & Hk)]; [|by eauto].
           case_decide; [by auto|].
           apply elem_of_app in Hin as [?| ->%list_elem_of_singleton]; [by auto|].
           right. exists s. auto.
        -- intros [Hin|(s' & [->|Hs'] & Hk)]; [| |by eauto].
           ++ left. case_decide; [done|]. apply elem_of_app. by left.
           ++ left. rewrite Hk0 in Hk. injection Hk as ->.
              case_decide; [done|]. apply elem_of_app. right. by left.
Qed.

(** An album group holds, in input order, exactly the records whose album
    name resolves to its key. *)
Lemma group_albums_songs data album_data k info :
  group_albums data = Ok album_data → (k, info) ∈ album_data →
  info_songs info = filter (λ s, album_key s = Ok k) data
  ∧ info_songs info ≠ [].
Proof.
  intros H Hin. apply group_albums_from in H as [Hnd H].
  specialize (Hnd (NoDup_nil_2 : NoDup ([] : dict album_info).*1)).
  destruct (H k) as [Hs Hk]. unfold songs_at in Hs.
  rewrite (elem_of_dict_get _ _ _ Hnd Hin) in Hs. simpl in Hs.
  split; [done|]. rewrite Hs.
  assert (k ∈ album_data.*1) as Hmem.
  { apply list_elem_of_fmap. by exists (k, info). }
  apply Hk in Hmem as [[]%elem_of_nil|(s & Hsd & Hsk)].
  intros Hnil. assert (s ∈ filter (λ s, album_key s = Ok k) data) as Hf.
  { by apply list_elem_of_filter. }
  rewrite Hnil in Hf. by apply elem_of_nil in Hf.
Qed.

Lemma group_albums_NoDup data album_data :
  group_albums data = Ok album_data → NoDup album_data.*1.
Proof.
  intros H. apply group_albums_from in H as [Hnd _]. apply Hnd. constructor.
Qed.

(** ** The builder loops *)

Lemma artist_id_inj a b : artist_id a = artist_id b → a = b.
Proof. unfold artist_id. apply app_inv_head. Qed.

Lemma album_id_inj a b : album_id a = album_id b → a = b.
Proof. unfold album_id. apply app_inv_head. Qed.

Lemma artist_id_album_id a b : artist_id a ≠ album_id b.
Proof. intros H. cbv in H. congruence. Qed.

Lemma mapM_Forall2 {A B} (f : A → result B) l bs :
  mapM f l = Ok bs ↔ Forall2 (λ a b, f a = Ok b) l bs.
Proof.
  revert bs. induction l as [|a l IH]; intros bs; simpl.
  - split; [intros [= <-]; constructor | by inversion 1].
  - destruct (f a) as [b|e] eqn:E; simpl.
    + destruct (mapM f l) as [bs'|e] eqn:E'; simpl.
      * split.
        -- intros [= <-]. constructor; [done|]. by apply IH.
        -- inversion 1 as [|? b0 ? bs0 Hb Hbs]; subst.
           apply IH in Hbs. congruence.
      * split; [done|]. inversion 1 as [|? b0 ? bs0 Hb Hbs]; subst.
        apply IH in Hbs. done.
    + split; [done|]. inversion 1; congruence.
Qed.

Lemma add_artists_spec l b b' :
  foldM add_artist b l = Ok b' →
  ∃ ns, Forall2 (λ x n, artist_node x.1 x.2 = Ok n) l ns
        ∧ b_nodes b' = b_nodes b ++ ns
        ∧ b_links b' = b_links b
        ∧ b_node_ids b' = list_to_set (artist_id <$> l.*1) ∪ b_node_ids b.
Proof.
  revert b. induction l as [|x l IH]; intros b; simpl.
  - intros [= <-]. exists []. rewrite app_nil_r.
    split_and!; [constructor | done | done | set_solver].
  - destruct (add_artist b x) as [b1|e] eqn:E; simpl; [|done].
    unfold add_artist in E.
    destruct (artist_node x.1 x.2) as [n|e] eqn:En; simpl in E; [|done].
    injection E as <-.
    intros (ns & Hns & Hn & Hl & Hi)%IH. simpl in *.
    exists (n :: ns). split_and!.
    + by constructor.
    + by rewrite Hn, <- app_assoc.
    + done.
    + rewrite Hi. set_solver.
Qed.

Lemma add_links_spec target weight names b :
  foldl (add_link target weight) b names
  = mkBuilder (b_nodes b)
      (b_links b ++ ((λ a, Link.mk (artist_id a) target weight)
                       <$> filter (λ a, artist_id a ∈ b_node_ids b) names))
      (b_node_ids b).
Proof.
  revert b. induction names as [|a names IH]; intros b; simpl.
  - rewrite app_nil_r. by destruct b.
  - rewrite IH, filter_cons. unfold add_link.
    case_bool_decide; simpl.
    + rewrite decide_True by done. rewrite fmap_cons.
      by rewrite <- app_assoc.
    + rewrite decide_False by done. done.
Qed.

Lemma retained_ids_album retained ids k :
  retained_ids retained ids → retained_ids retained ({[album_id k]} ∪ ids).
Proof.
  intros H a. rewrite <- (H a), elem_of_union, elem_of_singleton.
  pose proof (artist_id_album_id a k). naive_solver.
Qed.

Lemma add_album_spec retained b x b' :
  retained_ids retained (b_node_ids b) → info_songs x.2 ≠ [] →
  add_album b x = Ok b' →
  ∃ avg, mean_popularity (info_songs x.2) = Ok avg
         ∧ b_nodes b' = b_nodes b ++ [album_node x avg]
         ∧ b_links b' = b_links b ++ links_of retained x
         ∧ b_node_ids b' = {[album_id x.1]} ∪ b_node_ids b.
Proof.
  intros Hr Hne. unfold add_album. rewrite bool_decide_eq_false_2 by done.
  destruct (mean_popularity (info_songs x.2)) as [avg|e]; simpl; [|done].
  intros [= <-]. exists avg. rewrite add_links_spec. simpl.
  split_and!; try done. f_equal. unfold links_of. f_equal.
  apply list_filter_iff. intros a. by apply retained_ids_album.
Qed.

Lemma add_albums_spec retained l b b' :
  retained_ids retained (b_node_ids b) →
  Forall (λ x, info_songs x.2 ≠ []) l →
  foldM add_album b l = Ok b' →
  ∃ ns, Forall2 (λ x n, ∃ avg, mean_popularity (info_songs x.2) = Ok avg
                               ∧ n = album_node x avg) l ns
        ∧ b_nodes b' = b_nodes b ++ ns
        ∧ b_links b' = b_links b ++ concat (links_of retained <$> l)
        ∧ b_node_ids b' = list_to_set (album_id <$> l.*1) ∪ b_node_ids b.
Proof.
  intros Hr Hl. revert b Hr. induction Hl as [|x l Hx Hl IH]; intros b Hr; simpl.
  - intros [= <-]. exists []. rewrite !app_nil_r.
    split_and!; [constructor | done | done | set_solver].
  - destruct (add_album b x) as [b1|e] eqn:E; simpl; [|done].
    destruct (add_album_spec retained _ _ _ Hr Hx E) as (avg & Ha & Hn & Hk & Hi).
    intros (ns & Hns & Hn' & Hl' & Hi')%IH.
    2:{ rewrite Hi. by apply retained_ids_album. }
    exists (album_node x avg :: ns). split_and!.
    + constructor; [by exists avg | done].
    + by rewrite Hn', Hn, <- app_assoc.
    + by rewrite Hl', Hk, <- app_assoc.
    + rewrite Hi', Hi. set_solver.
Qed.

(** ** The payload in closed form *)

Lemma artist_node_fields a songs n :
  artist_node a songs = Ok n →
  Node.id n = artist_id a ∧ Node.name n = a ∧ Node.type n = artist
  ∧ Node.size n = artist_size songs.
Proof.
  unfold artist_node.
  destruct (if bool_decide (songs = []) then Ok 0%Q else mean_popularity songs);
    simpl; [|done].
  by intros [= <-].
Qed.

Lemma count_type_app k ns ns' :
  count_type k (ns ++ ns') = (count_type k ns + count_type k ns')%nat.
Proof. unfold count_type. by rewrite filter_app, length_app. Qed.

Lemma count_type_all k ns :
  Forall (λ n, Node.type n = k) ns → count_type k ns = length ns.
Proof.
  unfold count_type. induction 1 as [|n ns Hn _ IH]; [done|].
  rewrite filter_cons, decide_True by done. simpl. by rewrite IH.
Qed.

Lemma count_type_none k ns :
  Forall (λ n, Node.type n ≠ k) ns → count_type k ns = 0%nat.
Proof.
  unfold count_type. induction 1 as [|n ns Hn _ IH]; [done|].
  by rewrite filter_cons, decide_False.
Qed.

Lemma sorted_albums_nonempty data album_data :
  group_albums data = Ok album_data →
  Forall (λ x, info_songs x.2 ≠ []) (sorted_albums album_data).
Proof.
  intros H. apply Forall_forall. intros [k info] Hin.
  apply top_k_subseteq in Hin. simpl.
  by destruct (group_albums_songs _ _ _ _ H Hin).
Qed.

Lemma graph_body_spec data p :
  graph_body data = Ok p →
  ∃ album_data artist_nodes album_nodes,
    group_albums data = Ok album_data
    ∧ Forall2 (λ x n, artist_node x.1 x.2 = Ok n)
              (sorted_artists data) artist_nodes
    ∧ Forall2 (λ x n, ∃ avg, mean_popularity (info_songs x.2) = Ok avg
                             ∧ n = album_node x avg)
              (sorted_albums album_data) album_nodes
    ∧ Payload.nodes p = artist_nodes ++ album_nodes
    ∧ Payload.links p
      = concat (links_of (sorted_artists data).*1 <$> sorted_albums album_data)
    ∧ Payload.stats p
      = Stats.mk (length (Payload.nodes p)) (length (Payload.links p))
                 (length (sorted_artists data))
                 (length (sorted_albums album_data)).
Proof.
  unfold graph_body.
  destruct (foldM add_artist _ _) as [b1|e] eqn:E1; simpl; [|done].
  destruct (group_albums data) as [album_data|e] eqn:E2; simpl; [|done].
  destruct (foldM add_album b1 _) as [b2|e] eqn:E3; simpl; [|done].
  intros [= <-]. simpl.
  apply add_artists_spec in E1 as (ans & Hans & Hn1 & Hl1 & Hi1). simpl in *.
  apply (add_albums_spec (sorted_artists data).*1) in E3
    as (alns & Halns & Hn2 & Hl2 & Hi2).
  - exists album_data, ans, alns. rewrite Hn2, Hl2, Hn1, Hl1. simpl.
    split_and!; try done. f_equal.
    + rewrite count_type_app, count_type_all, count_type_none.
      * rewrite Nat.add_0_r. symmetry. by eapply Forall2_length.
      * eapply Forall2_Forall_r; [exact Halns|]. apply Forall_true.
        intros x n (avg & _ & ->). done.
      * eapply Forall2_Forall_r; [exact Hans|]. apply Forall_true.
        intros x n Hn. by apply artist_node_fields in Hn as (_ & _ & ? & _).
    + rewrite count_type_app, count_type_none, count_type_all.
      * symmetry. by eapply Forall2_length.
      * eapply Forall2_Forall_r; [exact Halns|]. apply Forall_true.
        intros x n (avg & _ & ->). done.
      * eapply Forall2_Forall_r; [exact Hans|]. apply Forall_true.
        intros x n Hn. apply artist_node_fields in Hn as (_ & _ & Ht & _).
        by rewrite Ht.
  - intros a. rewrite Hi1, elem_of_union, elem_of_list_to_set, list_elem_of_fmap.
    split.
    + intros [(a' & ->%artist_id_inj & ?)|[]%elem_of_empty]. done.
    + intros Ha. left. by exists a.
  - by eapply sorted_albums_nonempty.
Qed.

(** ** The graph route *)

Lemma get_graph_data_200 data p :
  get_graph_data data = Json200 p ↔ graph_body data = Ok p.
Proof.
  unfold get_graph_data. destruct (graph_body data); split; congruence.
Qed.

Lemma elem_of_concat {A} (x : A) (ls : list (list A)) :
  x ∈ concat ls ↔ ∃ l, x ∈ l ∧ l ∈ ls.
Proof.
  induction ls as [|l0 ls IH]; simpl.
  - split; [by intros ?%elem_of_nil | by intros (l & _ & ?%elem_of_nil)].
  - rewrite elem_of_app, IH. split.
    + intros [?|(l & ? & ?)]; [exists l0 | exists l]; split; auto; by constructor.
    + intros (l & Hx & [->|?]%elem_of_cons); [by left | right; by exists l].
Qed.

Lemma link_inv data p l :
  graph_body data = Ok p → l ∈ Payload.links p →
  ∃ album_data a k info,
    group_albums data = Ok album_data
    ∧ (k, info) ∈ sorted_albums album_data
    ∧ a ∈ (sorted_artists data).*1
    ∧ a ∈ info_artists info
    ∧ l = Link.mk (artist_id a) (album_id k) (Z.of_nat (length (info_songs info))).
Proof.
  intros (album_data & ans & alns & Hg & _ & _ & _ & Hl & _)%graph_body_spec.
  rewrite Hl. intros Hin.
  apply elem_of_concat in Hin as (ls & Hin & Hls).
  apply list_elem_of_fmap in Hls as ([k info] & -> & Hx).
  unfold links_of in Hin. apply list_elem_of_fmap in Hin as (a & -> & Ha).
  apply list_elem_of_filter in Ha as [Hr Ha]. apply elem_of_elements in Ha.
  by exists album_data, a, k, info.
Qed.

(** C1, as the code has it.  The weight of every edge is the number of
    records of the input whose album resolves to the target album: the
    size of the whole album group, whichever artist the edge starts from. *)
Theorem edge_weight_is_album_count (data : list song) (p : Payload.t)
    (l : Link.t)
    (Hrun : get_graph_data data = Json200 p) (Hl : l ∈ Payload.links p) :
  ∃ a k, Link.source l = artist_id a ∧ Link.target l = album_id k
         ∧ Link.value l = Z.of_nat (album_count data k).
Proof.
  apply get_graph_data_200 in Hrun.
  destruct (link_inv _ _ _ Hrun Hl) as (ad & a & k & info & Hg & Hk & _ & _ & ->).
  exists a, k. split_and!; try done. simpl. do 2 f_equal.
  apply top_k_subseteq in Hk.
  by destruct (group_albums_songs _ _ _ _ Hg Hk) as [-> _].
Qed.

Lemma edge_weight_is_album_count_witness :
  ∃ a k, artist_id (lit "A") = artist_id a ∧ album_id (lit "X") = album_id k
         ∧ 2 = Z.of_nat (album_count [track "A" "X" 10; track "B" "X" 30] k).
Proof.
  refine (edge_weight_is_album_count
            [track "A" "X" 10; track "B" "X" 30] _
            (Link.mk (artist_id (lit "A")) (album_id (lit "X")) 2) _ _).
  - vm_compute. reflexivity.
  - vm_compute. apply list_elem_of_In. simpl. tauto.
Defined.

(** C1 does not hold as stated: two artists with one record each on the
    same album both get an edge of weight 2, while each pairing has one
    record. *)
Lemma edge_weight_not_pair_count :
  ¬ (∀ data p l a k,
       get_graph_data data = Json200 p → l ∈ Payload.links p →
       Link.source l = artist_id a → Link.target l = album_id k →
       Link.value l = Z.of_nat (pair_count data a k)).
Proof.
  intros H.
  specialize (H [track "A" "X" 10; track "B" "X" 30] _
                (Link.mk (artist_id (lit "A")) (album_id (lit "X")) 2)
                (lit "A") (lit "X") eq_refl).
  assert (2 = Z.of_nat (pair_count [track "A" "X" 10; track "B" "X" 30]
                                   (lit "A") (lit "X"))) as E.
  { apply H; [|done|done]. vm_compute. apply list_elem_of_In. simpl. tauto. }
  vm_compute in E. discriminate E.
Qed.

Lemma node_inv data p n :
  graph_body data = Ok p → n ∈ Payload.nodes p →
  (∃ a songs, (a, songs) ∈ sorted_artists data ∧ artist_node a songs = Ok n)
  ∨ (∃ album_data k info avg,
       group_albums data = Ok album_data
       ∧ (k, info) ∈ sorted_albums album_data
       ∧ mean_popularity (info_songs info) = Ok avg
       ∧ n = album_node (k, info) avg).
Proof.
  intros (album_data & ans & alns & Hg & Hans & Halns & Hn & _)%graph_body_spec.
  rewrite Hn. intros [Hin|Hin]%elem_of_app.
  - left. apply list_elem_of_lookup in Hin as (i & Hi).
    destruct (Forall2_lookup_r _ _ _ _ _ Hans Hi) as ([a songs] & Hx & Hnode).
    exists a, songs. split; [|done]. by eapply list_elem_of_lookup_2.
  - right. apply list_elem_of_lookup in Hin as (i & Hi).
    destruct (Forall2_lookup_r _ _ _ _ _ Halns Hi)
      as ([k info] & Hx & avg & Havg & ->).
    exists album_data, k, info, avg. split_and!; try done.
    by eapply list_elem_of_lookup_2.
Qed.

Lemma artist_node_present data p a songs :
  graph_body data = Ok p → (a, songs) ∈ sorted_artists data →
  ∃ n, n ∈ Payload.nodes p ∧ artist_node a songs = Ok n.
Proof.
  intros (album_data & ans & alns & _ & Hans & _ & Hn & _)%graph_body_spec Hin.
  apply list_elem_of_lookup in Hin as (i & Hi).
  destruct (Forall2_lookup_l _ _ _ _ _ Hans Hi) as (n & Hni & Hnode).
  exists n. split; [|done]. rewrite Hn. apply elem_of_app. left.
  by eapply list_elem_of_lookup_2.
Qed.

Lemma album_node_present data p album_data x :
  graph_body data = Ok p → group_albums data = Ok album_data →
  x ∈ sorted_albums album_data →
  ∃ avg, album_node x avg ∈ Payload.nodes p.
Proof.
  intros (ad & ans & alns & Hg & _ & Halns & Hn & _)%graph_body_spec Hg' Hin.
  rewrite Hg in Hg'. injection Hg' as ->.
  apply list_elem_of_lookup in Hin as (i & Hi).
  destruct (Forall2_lookup_l _ _ _ _ _ Halns Hi) as (n & Hni & avg & _ & ->).
  exists avg. rewrite Hn. apply elem_of_app. right.
  by eapply list_elem_of_lookup_2.
Qed.

Lemma not_retained_absent data p a :
  graph_body data = Ok p → a ∉ (sorted_artists data).*1 →
  (∀ l, l ∈ Payload.links p → Link.source l ≠ artist_id a)
  ∧ (∀ n, n ∈ Payload.nodes p → Node.id n ≠ artist_id a).
Proof.
  intros Hrun Ha. split.
  - intros l Hl E.
    destruct (link_inv _ _ _ Hrun Hl)
      as (ad & a' & k & info & _ & _ & Ha' & _ & ->).
    simpl in E. apply artist_id_inj in E as ->. done.
  - intros n Hn E.
    destruct (node_inv _ _ _ Hrun Hn)
      as [(a' & songs & Hin & Hnode)|(ad & k & info & avg & _ & _ & _ & ->)].
    + apply artist_node_fields in Hnode as (Hid & _).
      rewrite Hid in E. apply artist_id_inj in E as ->.
      apply Ha. apply list_elem_of_fmap. by exists (a, songs).
    + simpl in E. symmetry in E. by apply artist_id_album_id in E.
Qed.

(** C4. In a payload of the graph route every edge starts at the id of an
    artist node of the node list and ends at the id of an album node of
    the node list.  An artist outside the retained top 50 is the source of
    no edge and has no node: the only artist nodes are those of the
    retained artists. *)
Theorem edges_between_nodes (data : list song) (p : Payload.t)
    (Hrun : get_graph_data data = Json200 p) :
  (∀ l, l ∈ Payload.links p →
     ∃ n1 n2, n1 ∈ Payload.nodes p ∧ n2 ∈ Payload.nodes p
              ∧ Node.id n1 = Link.source l ∧ Node.type n1 = artist
              ∧ Node.id n2 = Link.target l ∧ Node.type n2 = album)
  ∧ (∀ a, a ∉ (sorted_artists data).*1 →
       (∀ l, l ∈ Payload.links p → Link.source l ≠ artist_id a)
       ∧ (∀ n, n ∈ Payload.nodes p → Node.id n ≠ artist_id a)).
Proof.
  apply get_graph_data_200 in Hrun. split.
  - intros l Hl.
    destruct (link_inv _ _ _ Hrun Hl)
      as (ad & a & k & info & Hg & Hk & Ha & _ & ->).
    apply list_elem_of_fmap in Ha as ([a' songs] & -> & Ha).
    destruct (artist_node_present _ _ _ _ Hrun Ha) as (n1 & Hn1 & Hnode).
    destruct (album_node_present _ _ _ _ Hrun Hg Hk) as (avg & Hn2).
    apply artist_node_fields in Hnode as (Hid & _ & Hty & _).
    exists n1, (album_node (k, info) avg). by split_and!.
  - intros a Ha. by apply (not_retained_absent data).
Qed.

Lemma edges_between_nodes_witness :
  ∃ p, get_graph_data [track "A" "X" 10; track "B" "X" 30] = Json200 p
       ∧ ∀ l, l ∈ Payload.links p → Link.source l ≠ artist_id (lit "C").
Proof.
  eexists. split; [vm_compute; reflexivity|].
  refine (proj1 (proj2 (edges_between_nodes
                          [track "A" "X" 10; track "B" "X" 30] _ _)
                       (lit "C") _)).
  - vm_compute. reflexivity.
  - apply (bool_decide_unpack _). vm_compute. exact I.
Defined.

(** ** When the body returns *)

Lemma sum_from_ok acc xs :
  Forall (λ v, ∃ z, as_number v = Ok z) xs → ∃ t, sum_from acc xs = Ok t.
Proof.
  intros H. revert acc. induction H as [|v xs (z & Hz) _ IH]; intros acc; simpl.
  - by exists acc.
  - rewrite Hz. simpl. apply IH.
Qed.

Lemma mean_popularity_ok songs :
  songs ≠ [] →
  Forall (λ s, ∃ z, as_number (song_popularity s) = Ok z) songs →
  ∃ q, mean_popularity songs = Ok q.
Proof.
  intros Hne Hall. unfold mean_popularity, py_sum.
  destruct (sum_from_ok 0 (song_popularity <$> songs)) as (t & ->).
  { by apply Forall_fmap. }
  simpl. unfold true_div.
  destruct (Z.eqb_spec (Z.of_nat (length songs)) 0) as [E|_]; [|by eexists].
  destruct songs; [done|simpl in E; lia].
Qed.

Lemma add_artists_ok l b :
  Forall (λ x, ∃ n, artist_node x.1 x.2 = Ok n) l →
  ∃ b', foldM add_artist b l = Ok b'.
Proof.
  intros H. revert b. induction H as [|x l (n & Hn) _ IH]; intros b; simpl.
  - by exists b.
  - assert (∃ b1, add_artist b x = Ok b1) as (b1 & ->).
    { unfold add_artist. rewrite Hn. by eexists. }
    simpl. apply IH.
Qed.

Lemma add_albums_ok l b :
  Forall (λ x, ∃ q, mean_popularity (info_songs x.2) = Ok q) l →
  ∃ b', foldM add_album b l = Ok b'.
Proof.
  intros H. revert b. induction H as [|x l (q & Hq) _ IH]; intros b; simpl.
  - by exists b.
  - assert (∃ b1, add_album b x = Ok b1) as (b1 & ->).
    { unfold add_album. case_bool_decide; [by eexists|].
      rewrite Hq. by eexists. }
    simpl. apply IH.
Qed.

Lemma group_albums_ok data d :
  Forall (λ s, ∃ k, album_key s = Ok k) data →
  ∃ d', foldM add_to_album d data = Ok d'.
Proof.
  intros H. revert d. induction H as [|s data (k & Hk) _ IH]; intros d; simpl.
  - by exists d.
  - assert (∃ d1, add_to_album d s = Ok d1) as (d1 & ->).
    { unfold add_to_album. rewrite Hk. by eexists. }
    simpl. apply IH.
Qed.

(** The body returns when every album name can be resolved and every
    popularity read can be summed. *)
Lemma graph_body_ok data :
  (∀ s, s ∈ data →
     (∃ k, album_key s = Ok k) ∧ ∃ z, as_number (song_popularity s) = Ok z) →
  ∃ p, graph_body data = Ok p.
Proof.
  intros Hall. unfold graph_body.
  destruct (add_artists_ok (sorted_artists data) (mkBuilder [] [] ∅))
    as (b1 & ->).
  { apply Forall_forall. intros [a songs] Hin%top_k_subseteq.
    pose proof (group_artists_attributed data) as Hatt.
    eapply Forall_forall in Hatt as [Hne Hmem]; [|exact Hin]. simpl in *.
    unfold artist_node. rewrite bool_decide_eq_false_2 by done.
    destruct (mean_popularity_ok songs Hne) as (q & ->); [|by eexists].
    apply Forall_forall. intros s Hs. apply Hall. by apply Hmem. }
  simpl. destruct (group_albums_ok data []) as (ad & Had).
  { apply Forall_forall. intros s Hs. by apply Hall. }
  unfold group_albums. rewrite Had. simpl.
  destruct (add_albums_ok (sorted_albums ad) b1) as (b2 & ->); [|by eexists].
  apply Forall_forall. intros [k info] Hin%top_k_subseteq.
  destruct (group_albums_songs _ _ _ _ Had Hin) as [Hsongs Hne]. simpl.
  apply mean_popularity_ok; [done|].
  apply Forall_forall. intros s Hs. apply Hall.
  rewrite Hsongs in Hs. by apply list_elem_of_filter in Hs as [_ ?].
Qed.



(** ** Node sizes *)

Lemma artist_size_clamp songs :
  artist_size songs = clamp (Z.of_nat (length songs) * 2) 5 30.
Proof.
  unfold artist_size, clamp.
  destruct (Z.ltb_spec (Z.of_nat (length songs) * 2) 5);
    destruct (Z.ltb_spec 30 (Z.of_nat (length songs) * 2)); lia.
Qed.

Lemma album_size_clamp songs :
  album_size songs = clamp (Z.of_nat (length songs) + 5) 5 25.
Proof.
  unfold album_size, clamp.
  destruct (Z.ltb_spec (Z.of_nat (length songs) + 5) 5);
    destruct (Z.ltb_spec 25 (Z.of_nat (length songs) + 5)); lia.
Qed.

(** C9. Every retained artist group has its artist node, of size
    clamp(2 * recordCount, 5, 30), and every retained album group has its
    album node, of size clamp(recordCount + 5, 5, 25); so every artist node
    has a size from 5 to 30 and every album node one from 5 to 25, and an
    artist with 1000 records gets size 30. *)
Theorem node_sizes_clamped (data : list song) (p : Payload.t)
    (Hrun : get_graph_data data = Json200 p) :
  (∀ a songs, (a, songs) ∈ sorted_artists data →
     ∃ n, n ∈ Payload.nodes p ∧ Node.id n = artist_id a
          ∧ Node.type n = artist
          ∧ Node.size n = clamp (Z.of_nat (length songs) * 2) 5 30)
  ∧ (∀ album_data k info,
       group_albums data = Ok album_data →
       (k, info) ∈ sorted_albums album_data →
       ∃ n, n ∈ Payload.nodes p ∧ Node.id n = album_id k
            ∧ Node.type n = album
            ∧ Node.size n = clamp (Z.of_nat (length (info_songs info)) + 5) 5 25)
  ∧ (∀ n, n ∈ Payload.nodes p →
       match Node.type n with
       | artist => 5 ≤ Node.size n ≤ 30
       | album => 5 ≤ Node.size n ≤ 25
       end)
  ∧ (∀ a songs n, length songs = 1000%nat → artist_node a songs = Ok n →
       Node.size n = 30).
Proof.
  apply get_graph_data_200 in Hrun. split_and!.
  - intros a songs Hin.
    destruct (artist_node_present _ _ _ _ Hrun Hin) as (n & Hn & Hnode).
    apply artist_node_fields in Hnode as (Hid & _ & Hty & Hsz).
    exists n. rewrite <- artist_size_clamp. by split_and!.
  - intros ad k info Hg Hin.
    destruct (album_node_present _ _ _ _ Hrun Hg Hin) as (avg & Hn).
    exists (album_node (k, info) avg). rewrite <- album_size_clamp. by split_and!.
  - intros n Hn.
    destruct (node_inv _ _ _ Hrun Hn)
      as [(a & songs & _ & Hnode)|(ad & k & info & avg & _ & _ & _ & ->)].
    + apply artist_node_fields in Hnode as (_ & _ & -> & ->).
      unfold artist_size. lia.
    + simpl. unfold album_size. lia.
  - intros a songs n Hlen Hnode.
    apply artist_node_fields in Hnode as (_ & _ & _ & ->).
    unfold artist_size. rewrite Hlen. reflexivity.
Qed.

Lemma node_sizes_clamped_witness :
  ∃ p, get_graph_data [track "A, B" "X" 10; track "A" "X" 30] = Json200 p
       ∧ ∀ n, n ∈ Payload.nodes p →
           match Node.type n with
           | artist => 5 ≤ Node.size n ≤ 30
           | album => 5 ≤ Node.size n ≤ 25
           end.
Proof.
  eexists. split; [vm_compute; reflexivity|].
  refine (proj1 (proj2 (proj2 (node_sizes_clamped
                   [track "A, B" "X" 10; track "A" "X" 30] _ _)))).
  vm_compute. reflexivity.
Defined.

(** ** Who is left out of a ranking *)

Section RankingExclusion.
Context {A : Type} (key : A → nat).

Lemma length_filter_all (P : A → Prop) `{∀ x, Decision (P x)} l :
  Forall P l → length (filter P l) = length l.
Proof.
  induction 1 as [|x l Hx _ IH]; [done|].
  rewrite filter_cons, decide_True by done. simpl. by rewrite IH.
Qed.

(** With [K + m] entries of pairwise distinct keys, an entry with fewer
    than [m] entries below it is not among the first [K]. *)
Lemma top_k_excludes K m l x :
  length l = (K + m)%nat → NoDup (key <$> l) → x ∈ l →
  (length (filter (λ y, key y < key x)%nat l) < m)%nat →
  x ∉ top_k key K l.
Proof.
  intros Hlen Hnd Hx Hfew Htop. unfold top_k in Htop.
  pose proof (sorted_desc_perm key l) as Hperm.
  pose proof (sorted_desc_sorted key l) as Hsorted.
  set (S := sorted_desc key l) in *.
  rewrite <- (take_drop K S) in Hsorted.
  assert (NoDup (key <$> take K S ++ drop K S)) as Hnd'.
  { rewrite take_drop. by rewrite Hperm. }
  rewrite fmap_app in Hnd'. apply NoDup_app in Hnd' as (_ & Hdisj & _).
  assert (Forall (λ y, key y < key x)%nat (drop K S)) as Hall.
  { apply Forall_forall. intros y Hy.
    pose proof (StronglySorted_app_1_elem_of _ _ _ _ _ Hsorted Htop Hy) as Hle.
    unfold desc in Hle.
    assert (key y ≠ key x) as Hne.
    { intros E. apply (Hdisj (key x)).
      - apply list_elem_of_fmap. by exists x.
      - apply list_elem_of_fmap. by exists y. }
    lia. }
  apply (length_filter_all _ _) in Hall.
  assert (length (drop K S) = m) as Hm.
  { rewrite length_drop, (Permutation_length Hperm). lia. }
  assert (length (filter (λ y, key y < key x)%nat S)
          = length (filter (λ y, key y < key x)%nat l)) as Hf.
  { apply Permutation_length. by rewrite Hperm. }
  rewrite <- (take_drop K S), filter_app, length_app in Hf. lia.
Qed.
End RankingExclusion.

Lemma graph_body_stats data p :
  graph_body data = Ok p →
  Payload.stats p
  = Stats.mk (length (Payload.nodes p)) (length (Payload.links p))
             (count_type artist (Payload.nodes p))
             (count_type album (Payload.nodes p)).
Proof.
  unfold graph_body.
  destruct (foldM add_artist _ _) as [b1|e]; simpl; [|done].
  destruct (group_albums data) as [album_data|e]; simpl; [|done].
  destruct (foldM add_album b1 _) as [b2|e]; simpl; [|done].
  by intros [= <-].
Qed.

Lemma filter_type_app k (ns ns' : list Node.t) :
  Forall (λ n, Node.type n = k) ns → Forall (λ n, Node.type n ≠ k) ns' →
  filter (λ n, Node.type n = k) (ns ++ ns') = ns
  ∧ filter (λ n, Node.type n = k) (ns' ++ ns) = ns.
Proof.
  intros H H'.
  assert (filter (λ n, Node.type n = k) ns = ns) as E.
  { induction H as [|n ns Hn _ IH]; [done|].
    by rewrite filter_cons, decide_True, IH. }
  assert (filter (λ n, Node.type n = k) ns' = []) as E'.
  { induction H' as [|n ns' Hn _ IH]; [done|].
    by rewrite filter_cons, decide_False. }
  rewrite !filter_app, E, E'. by rewrite app_nil_r.
Qed.

(** The artist nodes are those of the ranked artist groups, the album nodes
    those of the ranked album groups, in ranking order. *)
Lemma graph_body_ranked data p :
  graph_body data = Ok p →
  ∃ album_data,
    group_albums data = Ok album_data
    ∧ Node.name <$> filter (λ n, Node.type n = artist) (Payload.nodes p)
      = (sorted_artists data).*1
    ∧ Node.id <$> filter (λ n, Node.type n = album) (Payload.nodes p)
      = album_id <$> (sorted_albums album_data).*1.
Proof.
  intros (album_data & ans & alns & Hg & Hans & Halns & Hn & _)%graph_body_spec.
  exists album_data. split; [done|]. rewrite Hn.
  assert (Forall (λ n, Node.type n = artist) ans) as Ha.
  { eapply Forall2_Forall_r; [exact Hans|]. apply Forall_true.
    intros x n Hx. by apply artist_node_fields in Hx as (_ & _ & ? & _). }
  assert (Forall (λ n, Node.type n = album) alns) as Hb.
  { eapply Forall2_Forall_r; [exact Halns|]. apply Forall_true.
    intros x n (avg & _ & ->). done. }
  destruct (filter_type_app artist ans alns) as [-> _]; [done| |].
  { eapply Forall_impl; [exact Hb|]. intros n ->. done. }
  destruct (filter_type_app album alns ans) as [_ ->]; [done| |].
  { eapply Forall_impl; [exact Ha|]. intros n ->. done. }
  split.
  - clear -Hans. induction Hans as [|x n l ns Hx _ IH]; [done|].
    csimpl. rewrite IH. f_equal.
    by apply artist_node_fields in Hx as (_ & -> & _).
  - clear -Halns. induction Halns as [|x n l ns (avg & _ & ->) _ IH]; [done|].
    csimpl. by rewrite IH.
Qed.

(** C6. Ranking keeps the first K entries of the one list that holds the
    entries of the mapping in descending order of cardinality, entries of
    equal cardinality in the mapping's insertion order.  The graph ranks the
    artist groups with K = 50 and the album groups with K = 40.  So with 60
    artists of pairwise distinct record counts there are exactly 50 artist
    nodes, and none of the 10 artists of lowest count has a node or is the
    source of an edge. *)
Theorem ranking_keeps_top_k :
  (∀ (A : Type) (key : A → nat) (K : nat) (l : list A),
     ∃ rest,
       top_k key K l ++ rest ≡ₚ l
       ∧ StronglySorted (desc key) (top_k key K l ++ rest)
       ∧ (∀ n, filter (λ y, key y = n) (top_k key K l ++ rest)
               = filter (λ y, key y = n) l)
       ∧ length (top_k key K l) = (K `min` length l)%nat)
  ∧ (∀ data p,
       get_graph_data data = Json200 p →
       ∃ album_data,
         group_albums data = Ok album_data
         ∧ Node.name <$> filter (λ n, Node.type n = artist) (Payload.nodes p)
           = (top_k (λ x, length x.2) 50 (group_artists data)).*1
         ∧ Node.id <$> filter (λ n, Node.type n = album) (Payload.nodes p)
           = album_id
               <$> (top_k (λ x, length (info_songs x.2)) 40 album_data).*1)
  ∧ (∀ data p,
       get_graph_data data = Json200 p →
       length (group_artists data) = 60%nat →
       NoDup ((λ x, length x.2) <$> group_artists data) →
       count_type artist (Payload.nodes p) = 50%nat
       ∧ ∀ a songs,
           (a, songs) ∈ group_artists data →
           (length (filter (λ x, length x.2 < length songs)%nat
                           (group_artists data)) < 10)%nat →
           (∀ n, n ∈ Payload.nodes p → Node.id n ≠ artist_id a)
           ∧ (∀ l, l ∈ Payload.links p → Link.source l ≠ artist_id a)).
Proof.
  split_and!.
  - intros A key K l. apply top_k_spec.
  - intros data p Hrun%get_graph_data_200. by apply graph_body_ranked.
  - intros data p Hrun%get_graph_data_200 Hlen Hnd. split.
    + destruct (graph_body_ranked _ _ Hrun) as (ad & _ & Hnames & _).
      unfold count_type.
      rewrite <- (length_fmap Node.name), Hnames, length_fmap.
      unfold sorted_artists. rewrite top_k_length, Hlen. reflexivity.
    + intros a songs Hin Hfew.
      assert (a ∉ (sorted_artists data).*1) as Hout.
      { intros ([a' songs'] & -> & Htop)%list_elem_of_fmap. simpl in *.
        pose proof (group_artists_NoDup data) as Hkeys.
        pose proof (top_k_subseteq _ _ _ _ Htop) as Hin'.
        assert (songs' = songs) as ->.
        { apply (elem_of_dict_get _ _ _ Hkeys) in Hin, Hin'. congruence. }
        revert Htop.
        by apply (top_k_excludes (λ x, length x.2) 50 10 _ (a', songs)). }
      destruct (not_retained_absent _ _ _ Hrun Hout). by split.
Qed.

Lemma ranking_keeps_top_k_witness :
  ∃ p, get_graph_data library60 = Json200 p
       ∧ count_type artist (Payload.nodes p) = 50%nat.
Proof.
  eexists. split; [vm_compute; reflexivity|].
  refine (proj1 (proj2 (proj2 ranking_keeps_top_k) library60 _ _ _ _)).
  - vm_compute. reflexivity.
  - vm_compute. reflexivity.
  - apply (bool_decide_unpack _). vm_compute. exact I.
Defined.

(** ** Records without artists *)

Lemma blank_artists_skipped s : blank_artists s = true → song_artists s = [].
Proof.
  unfold blank_artists. destruct (artist_names s) as [v|] eqn:E; simpl.
  - destruct v as [| | |t]; try done. intros Hb.
    rewrite (first_pass_normalizes s t E). by apply normalize_blank.
  - intros _. unfold song_artists. by rewrite E.
Qed.

Lemma group_albums_resolved d data d' :
  foldM add_to_album d data = Ok d' → ∀ s, s ∈ data → ∃ k, album_key s = Ok k.
Proof.
  revert d. induction data as [|s0 data IH]; simpl; intros d.
  - by intros _ s ?%elem_of_nil.
  - destruct (add_to_album d s0) as [d1|e] eqn:E; simpl; [|done].
    intros H s [->|Hs]%elem_of_cons; [|by eapply IH].
    apply add_to_album_keys in E as (k & Hk & _). by exists k.
Qed.

Lemma group_albums_member data album_data s :
  group_albums data = Ok album_data → s ∈ data →
  ∃ k info, album_key s = Ok k ∧ (k, info) ∈ album_data ∧ s ∈ info_songs info.
Proof.
  intros H Hs.
  destruct (group_albums_resolved _ _ _ H s Hs) as (k & Hk).
  pose proof (group_albums_from _ _ _ H) as [_ Hfrom].
  destruct (Hfrom k) as [_ Hmem].
  assert (k ∈ album_data.*1) as Hin by (apply Hmem; right; eauto).
  apply list_elem_of_fmap in Hin as ([k' info] & -> & Hin). simpl in *.
  exists k', info. split_and!; [done..|].
  destruct (group_albums_songs _ _ _ _ H Hin) as [-> _].
  by apply list_elem_of_filter.
Qed.

(** C10. A record whose artist-names field is empty or blank is filed under
    no artist, so it is a member of no artist group, yet it is a member of
    the group of the album its name resolves to.  Hence an album node with
    an empty artist set and no edge at either end can occur: a single record
    with a blank artist field gives one. *)
Theorem isolated_album_nodes :
  (∀ data s,
     s ∈ data → blank_artists s = true →
     song_artists s = []
     ∧ (∀ x, x ∈ group_artists data → s ∉ x.2)
     ∧ ∀ album_data,
         group_albums data = Ok album_data →
         ∃ k info, album_key s = Ok k ∧ (k, info) ∈ album_data
                   ∧ s ∈ info_songs info)
  ∧ (∃ data p album_data k info n,
       get_graph_data data = Json200 p
       ∧ group_albums data = Ok album_data
       ∧ (k, info) ∈ album_data ∧ info_artists info = ∅
       ∧ n ∈ Payload.nodes p ∧ Node.id n = album_id k ∧ Node.type n = album
       ∧ ∀ l, l ∈ Payload.links p →
              Link.source l ≠ Node.id n ∧ Link.target l ≠ Node.id n).
Proof.
  split.
  - intros data s Hs Hb. pose proof (blank_artists_skipped s Hb) as Hnone.
    split_and!; [done| |].
    + intros x Hx Hin.
      pose proof (group_artists_attributed data) as Hall.
      eapply Forall_forall in Hall; [|exact Hx].
      destruct Hall as [_ Hall]. destruct (Hall s Hin) as [_ Ha].
      rewrite Hnone in Ha. by apply elem_of_nil in Ha.
    + intros ad Hg. by apply (group_albums_member data).
  - exists [track " " "Y" 3].
    eexists _, _, (lit "Y"), (mkInfo ∅ [track " " "Y" 3]), _.
    split_and!.
    + vm_compute. reflexivity.
    + vm_compute. reflexivity.
    + left.
    + reflexivity.
    + left.
    + reflexivity.
    + reflexivity.
    + simpl. by intros l ?%elem_of_nil.
Qed.

Lemma isolated_album_nodes_witness :
  song_artists (track " " "Y" 3) = [].
Proof.
  refine (proj1 (proj1 isolated_album_nodes
                   [track "A" "X" 1; track " " "Y" 3] (track " " "Y" 3) _ _)).
  - right. left.
  - reflexivity.
Defined.

(** ** The statistics route *)

Ltac bind_inv H :=
  match type of H with
  | mbind _ ?m = Ok _ =>
      let E := fresh "E" in
      destruct m eqn:E; simpl in H; [|discriminate H]
  end.

Lemma get_statistics_fields py_int data st :
  get_statistics py_int data = Ok st →
  Statistics.total_songs st = length data
  ∧ popularity_histogram data = Ok (Statistics.popularity_distribution st)
  ∧ ∃ artists, all_artists data = Ok artists
               ∧ Statistics.top_artists st = most_common 10 (Counter artists).
Proof.
  unfold get_statistics. intros H.
  repeat bind_inv H.
  injection H as <-. simpl. eauto.
Qed.

Lemma bucket_count_cons lo hi s data :
  bucket_count lo hi (s :: data)
  = ((if in_range lo hi s then 1 else 0) + bucket_count lo hi data)%nat.
Proof. unfold bucket_count. simpl. by destruct (in_range lo hi s). Qed.

Lemma in_range_int lo hi s z :
  popularity s = Some (PInt z) → in_range lo hi s = (lo <=? z) && (z <=? hi).
Proof. unfold in_range. by intros ->. Qed.

Lemma count_popularity_step a b c d e s z :
  popularity s = Some (PInt z) → 0 ≤ z ≤ 100 →
  count_popularity (histogram a b c d e) s
  = Ok (histogram ((if in_range 0 20 s then 1 else 0) + a)
                  ((if in_range 21 40 s then 1 else 0) + b)
                  ((if in_range 41 60 s then 1 else 0) + c)
                  ((if in_range 61 80 s then 1 else 0) + d)
                  ((if in_range 81 100 s then 1 else 0) + e)).
Proof.
  intros Hp Hz. rewrite !(in_range_int _ _ s z Hp).
  unfold count_popularity. rewrite Hp. simpl. unfold bucket, py_le. simpl.
  destruct (Z.leb_spec z 20).
  { replace (0 <=? z) with true by lia.
    replace (21 <=? z) with false by lia.
    replace (41 <=? z) with false by lia.
    replace (61 <=? z) with false by lia.
    replace (81 <=? z) with false by lia. done. }
  replace (0 <=? z) with true by lia. simpl.
  destruct (Z.leb_spec z 40).
  { replace (21 <=? z) with true by lia.
    replace (41 <=? z) with false by lia.
    replace (61 <=? z) with false by lia.
    replace (81 <=? z) with false by lia. done. }
  replace (21 <=? z) with true by lia. simpl.
  destruct (Z.leb_spec z 60).
  { replace (41 <=? z) with true by lia.
    replace (61 <=? z) with false by lia.
    replace (81 <=? z) with false by lia. done. }
  replace (41 <=? z) with true by lia. simpl.
  destruct (Z.leb_spec z 80).
  { replace (61 <=? z) with true by lia.
    replace (81 <=? z) with false by lia. done. }
  replace (61 <=? z) with true by lia.
  replace (81 <=? z) with true by lia.
  replace (z <=? 100) with true by lia. done.
Qed.

Lemma histogram_ext a b c d e a' b' c' d' e' :
  a = a' → b = b' → c = c' → d = d' → e = e' →
  histogram a b c d e = histogram a' b' c' d' e'.
Proof. by intros -> -> -> -> ->. Qed.

Lemma popularity_histogram_from a b c d e data :
  (∀ s, s ∈ data → ∃ z, popularity s = Some (PInt z) ∧ 0 ≤ z ≤ 100) →
  foldM count_popularity (histogram a b c d e) data
  = Ok (histogram (bucket_count 0 20 data + a) (bucket_count 21 40 data + b)
                  (bucket_count 41 60 data + c) (bucket_count 61 80 data + d)
                  (bucket_count 81 100 data + e)).
Proof.
  revert a b c d e. induction data as [|s data IH]; intros a b c d e Hall.
  - done.
  - destruct (Hall s) as (z & Hp & Hz); [by left|].
    simpl. rewrite (count_popularity_step _ _ _ _ _ s z Hp Hz). simpl.
    rewrite IH by (intros s' Hs'; apply Hall; by right).
    rewrite !bucket_count_cons. f_equal. apply histogram_ext; lia.
Qed.

Lemma one_bucket s z :
  popularity s = Some (PInt z) → 0 ≤ z ≤ 100 →
  length (List.filter (λ r : Z * Z, in_range r.1 r.2 s)
            [(0, 20); (21, 40); (41, 60); (61, 80); (81, 100)]) = 1%nat.
Proof.
  intros Hp Hz. simpl. rewrite !(in_range_int _ _ s z Hp).
  destruct (Z.leb_spec z 20).
  { replace (0 <=? z) with true by lia.
    replace (21 <=? z) with false by lia.
    replace (41 <=? z) with false by lia.
    replace (61 <=? z) with false by lia.
    replace (81 <=? z) with false by lia. done. }
  replace (0 <=? z) with true by lia. simpl.
  destruct (Z.leb_spec z 40).
  { replace (21 <=? z) with true by lia.
    replace (41 <=? z) with false by lia.
    replace (61 <=? z) with false by lia.
    replace (81 <=? z) with false by lia. done. }
  replace (21 <=? z) with true by lia. simpl.
  destruct (Z.leb_spec z 60).
  { replace (41 <=? z) with true by lia.
    replace (61 <=? z) with false by lia.
    replace (81 <=? z) with false by lia. done. }
  replace (41 <=? z) with true by lia. simpl.
  destruct (Z.leb_spec z 80).
  { replace (61 <=? z) with true by lia.
    replace (81 <=? z) with false by lia. done. }
  replace (61 <=? z) with true by lia.
  replace (81 <=? z) with true by lia.
  replace (z <=? 100) with true by lia. done.
Qed.

Lemma bucket_counts_total data :
  (∀ s, s ∈ data → ∃ z, popularity s = Some (PInt z) ∧ 0 ≤ z ≤ 100) →
  (bucket_count 0 20 data + bucket_count 21 40 data + bucket_count 41 60 data
   + bucket_count 61 80 data + bucket_count 81 100 data)%nat = length data.
Proof.
  induction data as [|s data IH]; intros Hall; [done|].
  destruct (Hall s) as (z & Hp & Hz); [by left|].
  pose proof (one_bucket s z Hp Hz) as H1. simpl in H1.
  rewrite !bucket_count_cons. simpl.
  rewrite <- IH by (intros s' Hs'; apply Hall; by right).
  destruct (in_range 0 20 s), (in_range 21 40 s), (in_range 41 60 s),
    (in_range 61 80 s), (in_range 81 100 s); simpl in H1; lia.
Qed.

(** C7. When every record has an integer popularity from 0 to 100, the
    popularity loop ends with the five counters 0-20, 21-40, 41-60, 61-80
    and 81-100 holding the number of records whose popularity lies in that
    inclusive range; each record lies in exactly one range, and the five
    counts add up to the number of records.  The statistics payload, when
    the route returns one, carries these counters. *)
Theorem popularity_buckets (data : list song)
    (Hpop : ∀ s, s ∈ data → ∃ z, popularity s = Some (PInt z) ∧ 0 ≤ z ≤ 100) :
  popularity_histogram data
  = Ok (histogram (bucket_count 0 20 data) (bucket_count 21 40 data)
                  (bucket_count 41 60 data) (bucket_count 61 80 data)
                  (bucket_count 81 100 data))
  ∧ (∀ s, s ∈ data →
       length (List.filter (λ r : Z * Z, in_range r.1 r.2 s)
                 [(0, 20); (21, 40); (41, 60); (61, 80); (81, 100)]) = 1%nat)
  ∧ (bucket_count 0 20 data + bucket_count 21 40 data
     + bucket_count 41 60 data + bucket_count 61 80 data
     + bucket_count 81 100 data)%nat = length data
  ∧ ∀ py_int st,
      get_statistics py_int data = Ok st →
      Statistics.popularity_distribution st
      = histogram (bucket_count 0 20 data) (bucket_count 21 40 data)
                  (bucket_count 41 60 data) (bucket_count 61 80 data)
                  (bucket_count 81 100 data)
      ∧ sum_list (Statistics.popularity_distribution st).*2
        = Statistics.total_songs st.
Proof.
  assert (popularity_histogram data
          = Ok (histogram (bucket_count 0 20 data) (bucket_count 21 40 data)
                  (bucket_count 41 60 data) (bucket_count 61 80 data)
                  (bucket_count 81 100 data))) as Hhist.
  { unfold popularity_histogram.
    change popularity_ranges with (histogram 0 0 0 0 0).
    rewrite popularity_histogram_from by done.
    f_equal. apply histogram_ext; lia. }
  pose proof (bucket_counts_total data Hpop) as Hsum.
  split_and!; [done| |done|].
  - intros s Hs. destruct (Hpop s Hs) as (z & Hp & Hz). by eapply one_bucket.
  - intros py_int st (Hn & Hd & _)%get_statistics_fields.
    rewrite Hhist in Hd. injection Hd as <-. split; [done|].
    rewrite Hn. simpl. lia.
Qed.

Lemma popularity_buckets_witness :
  popularity_histogram [track "A" "X" 10; track "B" "Y" 93]
  = Ok (histogram 1 0 0 0 1).
Proof.
  refine (proj1 (popularity_buckets [track "A" "X" 10; track "B" "Y" 93] _)).
  intros s Hs. apply list_elem_of_In in Hs. simpl in Hs.
  destruct Hs as [<-|[<-|[]]]; eexists; (split; [reflexivity|simpl; lia]).
Defined.

(** C8. On the empty record sequence the statistics route returns, with
    0 songs, 0 hours, average popularity 0, explicit count and percentage 0,
    no artist and no album, empty top lists, an empty decade histogram and
    the five popularity buckets at 0: the two quotients by the record count
    are not taken (taken, they would raise).  The graph route returns the
    payload without nodes and links. *)
Theorem empty_library (py_int : pystr → option Z) :
  (∃ st,
     get_statistics py_int [] = Ok st
     ∧ Statistics.total_songs st = 0%nat
     ∧ Qeq (Statistics.total_hours st) 0
     ∧ Statistics.avg_popularity st = 0%Q
     ∧ Statistics.avg_duration_min st = 0%Q
     ∧ Statistics.explicit_count st = 0%nat
     ∧ Statistics.explicit_percentage st = 0%Q
     ∧ Statistics.total_artists st = 0%nat
     ∧ Statistics.total_albums st = 0%nat
     ∧ Statistics.top_artists st = []
     ∧ Statistics.top_albums st = []
     ∧ Statistics.decade_distribution st = []
     ∧ Statistics.popularity_distribution st = histogram 0 0 0 0 0)
  ∧ true_div 0 (Z.of_nat (length ([] : list song))) = Raise ZeroDivisionError
  ∧ get_graph_data [] = Json200 (Payload.mk [] [] (Stats.mk 0 0 0 0)).
Proof.
  split; [|split; reflexivity].
  eexists. split; [reflexivity|]. simpl. split_and!; reflexivity.
Qed.

(** ** Counters *)

Lemma py_eqb_norm a b : py_eqb a b = true ↔ norm_key a = norm_key b.
Proof.
  destruct a as [|[]|z|t], b as [|[]|z'|t']; unfold py_eqb, norm_key;
    cbn [as_number]; rewrite ?Z.eqb_eq, ?bool_decide_eq_true;
    split; try done; congruence.
Qed.

Lemma py_eqb_refl a : py_eqb a a = true.
Proof. by apply py_eqb_norm. Qed.

Lemma py_eqb_congr a b c : py_eqb a b = true → py_eqb c a = py_eqb c b.
Proof.
  intros Hab%py_eqb_norm.
  destruct (py_eqb c a) eqn:E1, (py_eqb c b) eqn:E2; try done.
  - apply py_eqb_norm in E1. rewrite Hab in E1. apply py_eqb_norm in E1.
    congruence.
  - apply py_eqb_norm in E2. rewrite <- Hab in E2. apply py_eqb_norm in E2.
    congruence.
Qed.

Lemma counter_get_add k k' c :
  counter_get k' (counter_add k c)
  = if py_eqb k' k then S (counter_get k' c) else counter_get k' c.
Proof.
  induction c as [|[k0 n] c IH]; simpl; [done|].
  destruct (py_eqb k k0) eqn:E; simpl.
  - rewrite (py_eqb_congr _ _ k' E). by destruct (py_eqb k' k0).
  - rewrite IH. destruct (py_eqb k' k0) eqn:E0; [|done].
    destruct (py_eqb k' k) eqn:E1; [|done].
    apply py_eqb_norm in E0, E1.
    assert (py_eqb k k0 = true) by (apply py_eqb_norm; congruence).
    congruence.
Qed.

Lemma counter_get_from k c xs :
  counter_get k (foldl (λ c k, counter_add k c) c xs)
  = (counter_get k c + length (List.filter (py_eqb k) xs))%nat.
Proof.
  revert c. induction xs as [|x xs IH]; intros c; simpl; [lia|].
  rewrite IH, counter_get_add. destruct (py_eqb k x); simpl; lia.
Qed.

Lemma counter_add_keys k c :
  (counter_add k c).*1
  = if decide (norm_key k ∈ norm_key <$> c.*1) then c.*1 else c.*1 ++ [k].
Proof.
  induction c as [|[k0 n] c IH]; csimpl; [done|].
  - destruct (py_eqb k k0) eqn:E; csimpl.
    + apply py_eqb_norm in E. rewrite decide_True; [done|]. rewrite E. left.
    + rewrite IH. case_decide as Hin.
      * rewrite decide_True; [done|]. by right.
      * rewrite decide_False; [done|].
        intros [E'|?]%elem_of_cons; [|done].
        apply py_eqb_norm in E'. congruence.
Qed.

Lemma counter_add_NoDup k c :
  NoDup (norm_key <$> c.*1) → NoDup (norm_key <$> (counter_add k c).*1).
Proof.
  intros Hc. rewrite counter_add_keys. case_decide as Hin; [done|].
  rewrite fmap_app. apply NoDup_app. split_and!; [done| |apply NoDup_singleton].
  by intros x Hx ->%list_elem_of_singleton.
Qed.

Lemma counter_get_elem k n c :
  NoDup (norm_key <$> c.*1) → (k, n) ∈ c → counter_get k c = n.
Proof.
  induction c as [|[k0 n0] c IH]; csimpl.
  - by intros _ ?%elem_of_nil.
  - intros [Hk0 Hc]%NoDup_cons [[= -> ->]|Hin]%elem_of_cons.
    + by rewrite py_eqb_refl.
    + destruct (py_eqb k k0) eqn:E; [|auto].
      apply py_eqb_norm in E. exfalso. apply Hk0. rewrite <- E.
      apply list_elem_of_fmap. exists k. split; [done|].
      apply list_elem_of_fmap. by exists (k, n).
Qed.

Lemma Counter_from_keys c xs k :
  k ∈ (foldl (λ c k, counter_add k c) c xs).*1 → k ∈ c.*1 ∨ k ∈ xs.
Proof.
  revert c. induction xs as [|x xs IH]; intros c; simpl; [by left|].
  intros [Hin|Hin]%IH; [|right; by right].
  rewrite counter_add_keys in Hin. case_decide; [by left|].
  apply elem_of_app in Hin as [?| ->%list_elem_of_singleton]; [by left|].
  right. by left.
Qed.

Lemma Counter_from_counted c xs x :
  x ∈ xs ∨ norm_key x ∈ norm_key <$> c.*1 →
  norm_key x ∈ norm_key <$> (foldl (λ c k, counter_add k c) c xs).*1.
Proof.
  revert c. induction xs as [|x0 xs IH]; intros c; simpl.
  - by intros [?%elem_of_nil|?].
  - intros H. apply IH. rewrite counter_add_keys.
    destruct H as [[->|Hin]%elem_of_cons|Hin]; [|by left|].
    + right. case_decide; [done|]. rewrite fmap_app. apply elem_of_app.
      right. by left.
    + right. case_decide; [done|]. rewrite fmap_app. apply elem_of_app.
      by left.
Qed.

Lemma Counter_from_NoDup c xs :
  NoDup (norm_key <$> c.*1) →
  NoDup (norm_key <$> (foldl (λ c k, counter_add k c) c xs).*1).
Proof.
  revert c. induction xs as [|x xs IH]; intros c Hc; simpl; [done|].
  apply IH. by apply counter_add_NoDup.
Qed.

(** A [Counter] holds each distinct element once, with the number of its
    occurrences. *)
Lemma Counter_spec xs :
  NoDup (Counter xs).*1
  ∧ (∀ k n, (k, n) ∈ Counter xs →
       k ∈ xs ∧ n = length (List.filter (py_eqb k) xs))
  ∧ (∀ x, x ∈ xs → ∃ k n, (k, n) ∈ Counter xs ∧ py_eqb x k = true).
Proof.
  unfold Counter.
  pose proof (Counter_from_NoDup [] xs (NoDup_nil_2)) as Hnd.
  split_and!.
  - by eapply NoDup_fmap_1.
  - intros k n Hin. split.
    + destruct (Counter_from_keys [] xs k) as [[]%elem_of_nil|]; [|done].
      apply list_elem_of_fmap. by exists (k, n).
    + rewrite <- (counter_get_elem _ _ _ Hnd Hin). by rewrite counter_get_from.
  - intros x Hx.
    pose proof (Counter_from_counted [] xs x (or_introl Hx)) as Hin.
    apply list_elem_of_fmap in Hin as (k & Hk & Hin).
    apply list_elem_of_fmap in Hin as ([k' n] & -> & Hin).
    exists k', n. split; [done|]. by apply py_eqb_norm.
Qed.

(** ** The top artists of the statistics *)

Lemma all_artists_strings acc data :
  (∀ s, s ∈ data → ∃ t, artist_names s = Some (PStr t)) →
  foldM (λ acc s, artists ← stat_artists s; Ok (acc ++ artists)) acc data
  = Ok (acc ++ comma_tokens data).
Proof.
  revert acc. induction data as [|s data IH]; intros acc Hstr; simpl.
  - by rewrite app_nil_r.
  - destruct (Hstr s) as (t & Ht); [by left|].
    assert (stat_artists s = Ok (PStr <$> split comma_sep t)) as ->.
    { unfold stat_artists. by rewrite Ht. }
    simpl. rewrite IH by (intros s' Hs'; apply Hstr; by right).
    unfold comma_tokens, artist_field. simpl. rewrite Ht.
    by rewrite fmap_app, app_assoc.
Qed.

(** C2, as the code has it.  For records whose artist-names field is a
    string, the top-10 artist list of the statistics ranks, with K = 10,
    the tokens of every field split on ", " alone (no "; " fallback, no
    trimming, empty tokens kept): each distinct token once, with the number
    of its occurrences. *)
Theorem top_artists_by_comma_tokens (py_int : pystr → option Z)
    (data : list song) (st : Statistics.t)
    (Hstr : ∀ s, s ∈ data → ∃ t, artist_names s = Some (PStr t))
    (Hrun : get_statistics py_int data = Ok st) :
  Statistics.top_artists st = top_k snd 10 (Counter (comma_tokens data))
  ∧ NoDup (Counter (comma_tokens data)).*1
  ∧ (∀ k n, (k, n) ∈ Counter (comma_tokens data) →
       k ∈ comma_tokens data
       ∧ n = length (List.filter (py_eqb k) (comma_tokens data)))
  ∧ (∀ k, k ∈ comma_tokens data → ∃ n, (k, n) ∈ Counter (comma_tokens data)).
Proof.
  apply get_statistics_fields in Hrun as (_ & _ & artists & Ha & ->).
  unfold all_artists in Ha. rewrite all_artists_strings in Ha by done.
  injection Ha as <-. simpl.
  destruct (Counter_spec (comma_tokens data)) as (Hnd & Hcount & Hall).
  split_and!; try done.
  intros k Hk. destruct (Hall k Hk) as (k' & n & Hin & E).
  exists n. destruct (Hcount k' n Hin) as [Hk' _].
  unfold comma_tokens in Hk, Hk'.
  apply list_elem_of_fmap in Hk as (t & -> & _).
  apply list_elem_of_fmap in Hk' as (t' & -> & _).
  simpl in E. apply bool_decide_eq_true in E as ->. done.
Qed.

Lemma top_artists_by_comma_tokens_witness :
  ∃ st,
    get_statistics (λ _, None) [track "A, B" "X" 10; track "A" "X" 30] = Ok st
    ∧ Statistics.top_artists st
      = [(PStr (lit "A"), 2%nat); (PStr (lit "B"), 1%nat)].
Proof.
  eexists. split; [vm_compute; reflexivity|].
  refine (proj1 (top_artists_by_comma_tokens
                   (λ _, None) [track "A, B" "X" 10; track "A" "X" 30] _ _ _)).
  - intros s Hs. apply list_elem_of_In in Hs. simpl in Hs.
    destruct Hs as [<-|[<-|[]]]; eexists; reflexivity.
  - vm_compute. reflexivity.
Defined.

(** C2 does not hold as stated: the field "A; B" is one artist for the
    statistics, and two for the normalizer. *)
Lemma top_artists_not_normalized :
  ¬ (∀ py_int data st,
       get_statistics py_int data = Ok st →
       Statistics.top_artists st = spec_top_artists data).
Proof.
  intros H.
  specialize (H (λ _, None) [track "A; B" "X" 10] _ eq_refl).
  vm_compute in H. discriminate H.
Qed.

(** * Further properties of the two routes *)

(** ** Keys of the groups *)

Lemma kept_elem a artists :
  a ∈ kept artists → a ≠ [] ∧ strip a = a.
Proof.
  unfold kept. intros (t & _ & Ht)%list_elem_of_omap.
  destruct (nonempty t && nonempty (strip t)) eqn:E; [|done].
  injection Ht as <-. apply andb_prop in E as [_ E%nonempty_spec].
  split; [done | apply strip_idemp].
Qed.

(** X1. The key under which a record is grouped by album is never empty
    and carries no outer whitespace; a record whose album name is missing,
    null or a blank string goes under "Unknown Album". *)
Theorem album_key_trimmed (s : song) :
  (∀ k, album_key s = Ok k → k ≠ [] ∧ strip k = k)
  ∧ (match album_name s with
     | None | Some PNone => True
     | Some (PStr t) => forallb isspace t = true
     | _ => False
     end → album_key s = Ok unknown_album).
Proof.
  unfold album_key. split.
  - intros k. destruct (album_name s) as [[|b|z|t]|]; simpl.
    + intros [= <-]. by vm_compute.
    + destruct b; simpl; [done|]. intros [= <-]. by vm_compute.
    + destruct (z =? 0); simpl; [|done]. intros [= <-]. by vm_compute.
    + destruct (bool_decide (t = [])); simpl.
      * intros [= <-]. by vm_compute.
      * case_bool_decide as E; intros [= <-]; [by vm_compute|].
        split; [done | apply strip_idemp].
    + intros [= <-]. by vm_compute.
  - destruct (album_name s) as [[|b|z|t]|]; simpl; try done.
    intros Hb. rewrite (strip_blank t Hb). simpl.
    by destruct (bool_decide (t = [])).
Qed.

Lemma album_key_trimmed_witness :
  album_key (track "A" "   " 1) = Ok unknown_album.
Proof.
  refine (proj2 (album_key_trimmed (track "A" "   " 1)) _). reflexivity.
Defined.

(** X2. Every name under which either loop of the graph route files a
    record is non-empty and trimmed, whatever the artist-names field holds;
    so are the keys of the artist groups and the names of the artist
    nodes. *)
Theorem artist_names_trimmed (data : list song) :
  (∀ s a, a ∈ song_artists s ∨ a ∈ album_artists s → a ≠ [] ∧ strip a = a)
  ∧ (∀ a, a ∈ (group_artists data).*1 → a ≠ [] ∧ strip a = a)
  ∧ (∀ p n, get_graph_data data = Json200 p → n ∈ Payload.nodes p →
       Node.type n = artist → Node.name n ≠ [] ∧ strip (Node.name n) = Node.name n).
Proof.
  assert (∀ s a, a ∈ song_artists s → a ≠ [] ∧ strip a = a) as H1.
  { intros s a. unfold song_artists.
    destruct (negb _); [by intros ?%elem_of_nil | apply kept_elem]. }
  assert (∀ a, a ∈ (group_artists data).*1 → a ≠ [] ∧ strip a = a) as H2.
  { intros a ([a' songs] & -> & Hin)%list_elem_of_fmap.
    pose proof (group_artists_attributed data) as Hall.
    eapply Forall_forall in Hall as [Hne Hmem]; [|exact Hin]. simpl in *.
    destruct songs as [|s songs]; [done|].
    destruct (Hmem s) as [_ Ha]; [by left|]. by eapply H1. }
  split_and!; [|done|].
  - intros s a [Ha|Ha]; [by eapply H1|]. by apply kept_elem in Ha.
  - intros p n Hrun%get_graph_data_200 Hn Hty.
    destruct (node_inv _ _ _ Hrun Hn)
      as [(a & songs & Hin & Hnode)|(ad & k & info & avg & _ & _ & _ & ->)];
      [|done].
    apply artist_node_fields in Hnode as (_ & -> & _).
    apply H2. apply top_k_subseteq in Hin.
    apply list_elem_of_fmap. by exists (a, songs).
Qed.

Lemma artist_names_trimmed_witness :
  lit "B" ≠ [] ∧ strip (lit "B") = lit "B".
Proof.
  refine (proj1 (artist_names_trimmed []) (track " A ;  B" "X" 1) (lit "B") _).
  left. apply (bool_decide_unpack _). vm_compute. exact I.
Defined.

(** ** What an artist group holds *)

Lemma file_song_group a' s d a :
  group_of a' (file_song s d a)
  = group_of a' d ++ (if decide (a' = a) then [s] else []).
Proof.
  unfold group_of, file_song. rewrite dict_get_alter.
  case_decide as E.
  - subst. rewrite dict_get_setdefault, decide_True by done. done.
  - rewrite dict_get_setdefault, decide_False by done. by rewrite app_nil_r.
Qed.

Lemma file_songs_group a' s names d :
  group_of a' (foldl (file_song s) d names)
  = group_of a' d ++ replicate (occurrences a' names) s.
Proof.
  revert d. induction names as [|a names IH]; intros d; simpl.
  - by rewrite app_nil_r.
  - rewrite IH, file_song_group, <- app_assoc. f_equal.
    unfold occurrences. rewrite filter_cons.
    destruct (decide (a' = a)) as [->|Hne].
    + by rewrite decide_True.
    + rewrite decide_False by congruence. done.
Qed.

Lemma group_artists_from a' d data :
  group_of a'
    (foldl (λ artist_songs s, foldl (file_song s) artist_songs (song_artists s))
           d data)
  = group_of a' d
    ++ flat_map (λ s, replicate (occurrences a' (song_artists s)) s) data.
Proof.
  revert d. induction data as [|s data IH]; intros d; simpl.
  - by rewrite app_nil_r.
  - by rewrite IH, file_songs_group, <- app_assoc.
Qed.

Lemma occurrences_pos a names : a ∈ names → (0 < occurrences a names)%nat.
Proof.
  intros Hin. unfold occurrences.
  assert (a ∈ filter (λ x, x = a) names) as H by (by apply list_elem_of_filter).
  destruct (filter (λ x, x = a) names); [by apply elem_of_nil in H|simpl; lia].
Qed.

(** X3. The group of an artist holds, in input order, every record once
    for each time its normalized artist list names the artist, and nothing
    else; an artist has a group exactly when some record names the artist.
    So a record is in the group of [a] exactly when it is a record of the
    input that names [a]. *)
Theorem artist_group_contents (data : list song) (a : pystr) :
  (∀ songs, (a, songs) ∈ group_artists data →
     songs = flat_map (λ s, replicate (occurrences a (song_artists s)) s) data)
  ∧ (a ∈ (group_artists data).*1 ↔ ∃ s, s ∈ data ∧ a ∈ song_artists s)
  ∧ (∀ s, s ∈ group_of a (group_artists data) ↔ s ∈ data ∧ a ∈ song_artists s).
Proof.
  pose proof (group_artists_from a [] data) as Hfrom.
  fold (group_artists data) in Hfrom. simpl in Hfrom.
  pose proof (group_artists_NoDup data) as Hnd.
  assert (∀ s, s ∈ group_of a (group_artists data)
               ↔ s ∈ data ∧ a ∈ song_artists s) as Hmem.
  { intros s. rewrite Hfrom, list_elem_of_In, in_flat_map. split.
    - intros (s' & Hs' & Hin). apply list_elem_of_In in Hs', Hin.
      apply elem_of_replicate in Hin as [-> Hocc]. split; [done|].
      unfold occurrences in Hocc.
      destruct (filter (λ x, x = a) (song_artists s')) as [|x l] eqn:E; [done|].
      assert (x ∈ filter (λ x, x = a) (song_artists s')) as Hx
        by (rewrite E; by left).
      by apply list_elem_of_filter in Hx as [-> ?].
    - intros [Hs Ha]. exists s. rewrite <- !list_elem_of_In. split; [done|].
      apply elem_of_replicate. split; [done|].
      apply occurrences_pos in Ha. lia. }
  split_and!; [| |done].
  - intros songs Hin. rewrite <- Hfrom. unfold group_of.
    by rewrite (elem_of_dict_get _ _ _ Hnd Hin).
  - split.
    + intros ([a' songs] & -> & Hin)%list_elem_of_fmap. simpl.
      pose proof (group_artists_attributed data) as Hall.
      eapply Forall_forall in Hall as [Hne Hatt]; [|exact Hin]. simpl in *.
      destruct songs as [|s songs]; [done|].
      exists s. apply Hatt. by left.
    + intros (s & Hs & Ha).
      destruct (dict_get a (group_artists data)) as [songs|] eqn:E.
      * apply dict_get_elem_of in E. apply list_elem_of_fmap.
        by exists (a, songs).
      * assert (s ∈ group_of a (group_artists data)) as Hin by (by apply Hmem).
        unfold group_of in Hin. rewrite E in Hin. by apply elem_of_nil in Hin.
Qed.

Lemma artist_group_contents_witness :
  [track "A, B" "X" 1; track "A" "Y" 2]
  = flat_map (λ s, replicate (occurrences (lit "A") (song_artists s)) s)
             [track "A, B" "X" 1; track "A" "Y" 2].
Proof.
  apply (proj1 (artist_group_contents
                  [track "A, B" "X" 1; track "A" "Y" 2] (lit "A"))).
  vm_compute. left.
Defined.

(** ** The edges, exactly *)

Lemma add_to_album_artists d s d' k' :
  add_to_album d s = Ok d' →
  artists_at k' d'
  = if decide (album_key s = Ok k')
    then list_to_set (album_artists s) ∪ artists_at k' d
    else artists_at k' d.
Proof.
  intros H. unfold artists_at at 1. rewrite (add_to_album_get _ _ _ k' H).
  by case_decide.
Qed.

Lemma group_albums_artists_from d data d' k a :
  foldM add_to_album d data = Ok d' →
  a ∈ artists_at k d'
  ↔ a ∈ artists_at k d ∨ ∃ s, s ∈ data ∧ album_key s = Ok k ∧ a ∈ album_artists s.
Proof.
  revert d. induction data as [|s data IH]; simpl; intros d.
  - intros [= ->]. split; [auto|]. by intros [?|(s & ?%elem_of_nil & _)].
  - destruct (add_to_album d s) as [d1|e] eqn:E; simpl; [|done].
    intros H. rewrite (IH _ H), (add_to_album_artists _ _ _ k E).
    setoid_rewrite elem_of_cons. case_decide as Hk.
    + rewrite elem_of_union, elem_of_list_to_set. split.
      * intros [[Ha|Ha]|(s' & Hs' & Hr)]; [right; exists s; auto|auto|].
        right. exists s'. auto.
      * intros [Ha|(s' & [->|Hs'] & Hk' & Ha)]; [auto|auto|].
        right. exists s'. auto.
    + split.
      * intros [Ha|(s' & Hs' & Hr)]; [auto|]. right. exists s'. auto.
      * intros [Ha|(s' & [->|Hs'] & Hk' & Ha)]; [auto|done|].
        right. exists s'. auto.
Qed.

Lemma group_albums_artists data album_data k info a :
  group_albums data = Ok album_data → (k, info) ∈ album_data →
  a ∈ info_artists info
  ↔ ∃ s, s ∈ data ∧ album_key s = Ok k ∧ a ∈ album_artists s.
Proof.
  intros H Hin. pose proof (group_albums_NoDup _ _ H) as Hnd.
  pose proof (group_albums_artists_from _ _ _ k a H) as Hfrom.
  unfold artists_at in Hfrom.
  rewrite (elem_of_dict_get _ _ _ Hnd Hin) in Hfrom. simpl in Hfrom.
  rewrite Hfrom. split; [|auto]. by intros [?%elem_of_empty|?].
Qed.

(** X4. The edges of the payload are exactly these: one from artist [a]
    to album [k] for every retained artist and retained album such that
    some record of the album names [a] in the second loop, its weight the
    size of the album group. *)
Theorem edges_exactly (data : list song) (p : Payload.t)
    (Hrun : get_graph_data data = Json200 p) :
  ∃ album_data,
    group_albums data = Ok album_data
    ∧ ∀ l, l ∈ Payload.links p
           ↔ ∃ a k, a ∈ (sorted_artists data).*1
                    ∧ k ∈ (sorted_albums album_data).*1
                    ∧ (∃ s, s ∈ data ∧ album_key s = Ok k ∧ a ∈ album_artists s)
                    ∧ l = Link.mk (artist_id a) (album_id k)
                                  (Z.of_nat (album_count data k)).
Proof.
  apply get_graph_data_200 in Hrun.
  destruct (graph_body_spec _ _ Hrun)
    as (album_data & ans & alns & Hg & _ & _ & _ & Hl & _).
  exists album_data. split; [done|]. intros l. split.
  - intros Hin.
    destruct (link_inv _ _ _ Hrun Hin)
      as (ad & a & k & info & Hg' & Hk & Ha & Hart & ->).
    rewrite Hg in Hg'. injection Hg' as <-.
    pose proof (top_k_subseteq _ _ _ _ Hk) as Hk'.
    exists a, k. split_and!; [done| | |].
    + apply list_elem_of_fmap. by exists (k, info).
    + by apply (group_albums_artists data album_data k info).
    + unfold album_count.
      by destruct (group_albums_songs _ _ _ _ Hg Hk') as [<- _].
  - intros (a & k & Ha & ([k' info] & -> & Hk)%list_elem_of_fmap & Hs & ->).
    simpl in *. pose proof (top_k_subseteq _ _ _ _ Hk) as Hk'.
    rewrite Hl. apply elem_of_concat.
    exists (links_of (sorted_artists data).*1 (k', info)). split.
    + unfold links_of. apply list_elem_of_fmap. exists a. simpl. split.
      * unfold album_count.
        by destruct (group_albums_songs _ _ _ _ Hg Hk') as [<- _].
      * apply list_elem_of_filter. split; [done|]. apply elem_of_elements.
        by apply (group_albums_artists data album_data k' info).
    + apply list_elem_of_fmap. by exists (k', info).
Qed.

Lemma edges_exactly_witness :
  ∃ p, get_graph_data [track "A" "X" 10; track "B" "X" 30] = Json200 p
       ∧ ∃ album_data,
           group_albums [track "A" "X" 10; track "B" "X" 30] = Ok album_data
           ∧ ∀ l, l ∈ Payload.links p
                  ↔ ∃ a k,
                      a ∈ (sorted_artists [track "A" "X" 10; track "B" "X" 30]).*1
                      ∧ k ∈ (sorted_albums album_data).*1
                      ∧ (∃ s, s ∈ [track "A" "X" 10; track "B" "X" 30]
                              ∧ album_key s = Ok k ∧ a ∈ album_artists s)
                      ∧ l = Link.mk (artist_id a) (album_id k)
                              (Z.of_nat (album_count
                                 [track "A" "X" 10; track "B" "X" 30] k)).
Proof.
  eexists. split; [vm_compute; reflexivity|].
  apply (edges_exactly [track "A" "X" 10; track "B" "X" 30]).
  vm_compute. reflexivity.
Defined.

(** ** No duplicates, bounded size *)

Lemma top_k_keys_NoDup {V} (key : pystr * V → nat) K (d : dict V) :
  NoDup d.*1 → NoDup (top_k key K d).*1.
Proof.
  intros Hnd. unfold top_k.
  apply (sublist_NoDup _ (sorted_desc key d).*1).
  - by rewrite (sorted_desc_perm key d).
  - apply fmap_sublist, sublist_take.
Qed.

Lemma Forall2_ids {A} (f : A → pystr) (P : A → Node.t → Prop) l ns :
  (∀ x n, P x n → Node.id n = f x) → Forall2 P l ns → Node.id <$> ns = f <$> l.
Proof.
  intros Hid. induction 1 as [|x n l ns Hx _ IH]; [done|].
  csimpl. by rewrite IH, (Hid x n Hx).
Qed.

Lemma graph_body_ids data p :
  graph_body data = Ok p →
  ∃ album_data,
    group_albums data = Ok album_data
    ∧ Node.id <$> Payload.nodes p
      = (artist_id <$> (sorted_artists data).*1)
        ++ (album_id <$> (sorted_albums album_data).*1).
Proof.
  intros (album_data & ans & alns & Hg & Hans & Halns & Hn & _)%graph_body_spec.
  exists album_data. split; [done|]. rewrite Hn, fmap_app. f_equal.
  - rewrite <- list_fmap_compose.
    eapply Forall2_ids; [|exact Hans].
    intros x n Hx. by apply artist_node_fields in Hx as (-> & _).
  - rewrite <- list_fmap_compose.
    eapply Forall2_ids; [|exact Halns].
    by intros x n (avg & _ & ->).
Qed.

Lemma links_of_NoDup retained x : NoDup (links_of retained x).
Proof.
  unfold links_of. apply NoDup_fmap_2_strong.
  - intros a b _ _ E%(f_equal Link.source). by apply artist_id_inj.
  - apply NoDup_filter, NoDup_elements.
Qed.

Lemma links_NoDup retained (l : dict album_info) :
  NoDup l.*1 → NoDup (concat (links_of retained <$> l)).
Proof.
  induction l as [|[k info] l IH]; csimpl; [constructor|].
  intros [Hk Hl]%NoDup_cons. apply NoDup_app. split_and!.
  - apply links_of_NoDup.
  - intros e He (ls & Hin & Hls)%elem_of_concat.
    apply list_elem_of_fmap in Hls as ([k' info'] & -> & Hx).
    unfold links_of in He, Hin.
    apply list_elem_of_fmap in He as (a & -> & _).
    apply list_elem_of_fmap in Hin as (a' & E%(f_equal Link.target) & _).
    simpl in E. apply album_id_inj in E as ->. apply Hk.
    apply list_elem_of_fmap. by exists (k', info').
  - by apply IH.
Qed.

(** X5. A payload of the graph route names every node once and every edge
    once: no two nodes share an id, and no two edges are equal (so there is
    at most one edge between an artist and an album). *)
Theorem payload_without_duplicates (data : list song) (p : Payload.t)
    (Hrun : get_graph_data data = Json200 p) :
  NoDup (Node.id <$> Payload.nodes p)
  ∧ NoDup (Payload.links p)
  ∧ NoDup ((λ l, (Link.source l, Link.target l)) <$> Payload.links p).
Proof.
  apply get_graph_data_200 in Hrun.
  destruct (graph_body_ids _ _ Hrun) as (album_data & Hg & Hids).
  destruct (graph_body_spec _ _ Hrun)
    as (ad & ans & alns & Hg' & _ & _ & _ & Hl & _).
  rewrite Hg in Hg'. injection Hg' as <-.
  pose proof (group_albums_NoDup _ _ Hg) as Hnd.
  assert (NoDup (Payload.links p)) as Hlinks.
  { rewrite Hl. apply links_NoDup. by apply top_k_keys_NoDup. }
  split_and!; [|done|].
  - rewrite Hids. apply NoDup_app. split_and!.
    + apply NoDup_fmap_2_strong.
      * intros a b _ _. apply artist_id_inj.
      * apply top_k_keys_NoDup, group_artists_NoDup.
    + intros i (a & -> & _)%list_elem_of_fmap (k & E & _)%list_elem_of_fmap.
      by apply artist_id_album_id in E.
    + apply NoDup_fmap_2_strong.
      * intros a b _ _. apply album_id_inj.
      * by apply top_k_keys_NoDup.
  - apply NoDup_fmap_2_strong; [|done].
    intros l1 l2 H1 H2 E.
    pose proof (f_equal fst E) as Hs. pose proof (f_equal snd E) as Ht.
    simpl in Hs, Ht.
    destruct (link_inv _ _ _ Hrun H1)
      as (ad1 & a1 & k1 & i1 & Hg1 & Hk1 & _ & _ & ->).
    destruct (link_inv _ _ _ Hrun H2)
      as (ad2 & a2 & k2 & i2 & Hg2 & Hk2 & _ & _ & ->).
    simpl in *. apply artist_id_inj in Hs as ->. apply album_id_inj in Ht as ->.
    rewrite Hg in Hg1, Hg2. injection Hg1 as <-. injection Hg2 as <-.
    apply top_k_subseteq in Hk1, Hk2.
    apply (elem_of_dict_get _ _ _ Hnd) in Hk1, Hk2. congruence.
Qed.

Lemma payload_without_duplicates_witness :
  ∃ p, get_graph_data [track "A, B" "X" 10; track "A" "X" 30] = Json200 p
       ∧ NoDup (Node.id <$> Payload.nodes p).
Proof.
  eexists. split; [vm_compute; reflexivity|].
  refine (proj1 (payload_without_duplicates
                   [track "A, B" "X" 10; track "A" "X" 30] _ _)).
  vm_compute. reflexivity.
Defined.

Lemma links_of_length retained x :
  NoDup retained → (length (links_of retained x) ≤ length retained)%nat.
Proof.
  intros Hnd. unfold links_of. rewrite length_fmap.
  apply submseteq_length, NoDup_submseteq.
  - apply NoDup_filter, NoDup_elements.
  - by intros a [? _]%list_elem_of_filter.
Qed.

Lemma links_length retained (l : dict album_info) :
  NoDup retained →
  (length (concat (links_of retained <$> l)) ≤ length l * length retained)%nat.
Proof.
  intros Hnd. induction l as [|x l IH]; csimpl; [done|].
  rewrite length_app. pose proof (links_of_length retained x Hnd). lia.
Qed.

(** X6. The payload is bounded whatever the size of the library: at most
    50 artist nodes and 40 album nodes, so at most 90 nodes, and at most
    one edge for each pair of an artist node and an album node, so at most
    2000 edges; the four counts of [stats] are those of the lists. *)
Theorem payload_bounded (data : list song) (p : Payload.t)
    (Hrun : get_graph_data data = Json200 p) :
  Stats.total_nodes (Payload.stats p) = length (Payload.nodes p)
  ∧ Stats.total_links (Payload.stats p) = length (Payload.links p)
  ∧ (Stats.artists (Payload.stats p) + Stats.albums (Payload.stats p))%nat
    = Stats.total_nodes (Payload.stats p)
  ∧ Stats.artists (Payload.stats p)
    = (50 `min` length (group_artists data))%nat
  ∧ (Stats.albums (Payload.stats p) ≤ 40)%nat
  ∧ (Stats.total_links (Payload.stats p)
     ≤ Stats.artists (Payload.stats p) * Stats.albums (Payload.stats p))%nat
  ∧ (length (Payload.nodes p) ≤ 90)%nat
  ∧ (length (Payload.links p) ≤ 2000)%nat.
Proof.
  apply get_graph_data_200 in Hrun.
  destruct (graph_body_spec _ _ Hrun)
    as (ad & ans & alns & Hg & Hans & Halns & Hn & Hl & ->).
  simpl.
  assert (length (sorted_artists data)
          = (50 `min` length (group_artists data))%nat) as Ha
    by apply top_k_length.
  assert (length (sorted_albums ad) = (40 `min` length ad)%nat) as Hb
    by apply top_k_length.
  assert (length (Payload.nodes p)
          = (length (sorted_artists data) + length (sorted_albums ad))%nat) as Hnn.
  { rewrite Hn, length_app.
    by rewrite <- (Forall2_length _ _ _ Hans), <- (Forall2_length _ _ _ Halns). }
  assert (length (Payload.links p)
          ≤ length (sorted_albums ad) * length (sorted_artists data))%nat as Hll.
  { rewrite Hl. etrans; [apply links_length|by rewrite length_fmap].
    apply top_k_keys_NoDup, group_artists_NoDup. }
  split_and!; try done; try lia. nia.
Qed.

Lemma payload_bounded_witness :
  ∃ p, get_graph_data library60 = Json200 p
       ∧ Stats.artists (Payload.stats p)
         = (50 `min` length (group_artists library60))%nat.
Proof.
  eexists. split; [vm_compute; reflexivity|].
  refine (proj1 (proj2 (proj2 (proj2 (payload_bounded library60 _ _))))).
  vm_compute. reflexivity.
Defined.

(** ** The popularity of a node *)

Lemma sum_from_bounds acc xs t :
  Forall (λ v, ∃ z, v = PInt z ∧ 0 ≤ z ≤ 100) xs →
  sum_from acc xs = Ok t → acc ≤ t ≤ acc + 100 * Z.of_nat (length xs).
Proof.
  intros H. revert acc. induction H as [|v xs (z & -> & Hz) _ IH]; intros acc.
  - simpl. intros [= <-]. lia.
  - simpl. intros Ht%IH. lia.
Qed.

Lemma mean_popularity_bounds songs q :
  Forall (λ s, ∃ z, song_popularity s = PInt z ∧ 0 ≤ z ≤ 100) songs →
  mean_popularity songs = Ok q → Qle 0 q ∧ Qle q (inject_Z 100).
Proof.
  intros Hall. unfold mean_popularity, py_sum.
  destruct (sum_from 0 (song_popularity <$> songs)) as [t|e] eqn:E;
    simpl; [|done].
  apply sum_from_bounds in E; [|by apply Forall_fmap].
  rewrite length_fmap in E. unfold true_div.
  destruct (Z.eqb_spec (Z.of_nat (length songs)) 0) as [|Hne]; [done|].
  intros [= <-]. unfold Qle. simpl.
  rewrite Z2Pos.id by lia. lia.
Qed.



(** ** Display names *)

Lemma display_name_length k : (length (display_name k) ≤ 53)%nat.
Proof.
  unfold display_name. destruct (Nat.ltb_spec 50 (length k)); [|simpl; lia].
  rewrite length_app, length_take.
  change (length (lit "...")) with 3%nat. lia.
Qed.

(** X8. The name shown for an artist node is the artist name in full (the
    id is "artist_" followed by it).  The name shown for an album node is
    the album key when that has at most 50 code points, else its first 50
    followed by "...", so never more than 53 code points; the id always
    carries the whole key. *)
Theorem display_names (data : list song) (p : Payload.t)
    (Hrun : get_graph_data data = Json200 p) :
  ∀ n, n ∈ Payload.nodes p →
    match Node.type n with
    | artist => Node.id n = artist_id (Node.name n)
    | album =>
        ∃ k, Node.id n = album_id k
             ∧ (length (Node.name n) ≤ 53)%nat
             ∧ ((length k ≤ 50)%nat → Node.name n = k)
             ∧ ((50 < length k)%nat → Node.name n = take 50 k ++ lit "...")
    end.
Proof.
  apply get_graph_data_200 in Hrun. intros n Hn.
  destruct (node_inv _ _ _ Hrun Hn)
    as [(a & songs & _ & Hnode)|(ad & k & info & avg & _ & _ & _ & ->)].
  - by apply artist_node_fields in Hnode as (-> & -> & -> & _).
  - simpl. exists k. split_and!; [done|apply display_name_length| |].
    + intros Hk. unfold display_name.
      destruct (Nat.ltb_spec 50 (length k)); [lia|done].
    + intros Hk. unfold display_name.
      destruct (Nat.ltb_spec 50 (length k)); [done|lia].
Qed.

Lemma display_names_witness :
  ∃ p, get_graph_data [track "A" "X" 10] = Json200 p
       ∧ ∀ n, n ∈ Payload.nodes p →
           match Node.type n with
           | artist => Node.id n = artist_id (Node.name n)
           | album =>
               ∃ k, Node.id n = album_id k
                    ∧ (length (Node.name n) ≤ 53)%nat
                    ∧ ((length k ≤ 50)%nat → Node.name n = k)
                    ∧ ((50 < length k)%nat
                       → Node.name n = take 50 k ++ lit "...")
           end.
Proof.
  eexists. split; [vm_compute; reflexivity|].
  apply (display_names [track "A" "X" 10]). vm_compute. reflexivity.
Defined.

(** ** When the statistics route returns *)

Lemma bind_Ok {A B} (m : result A) (k : A → result B) b :
  m ≫= k = Ok b ↔ ∃ a, m = Ok a ∧ k a = Ok b.
Proof.
  destruct m as [a|e]; simpl.
  - split; [by exists a | by intros (a' & [= <-] & ?)].
  - split; [done | by intros (a' & [=] & ?)].
Qed.

Lemma sum_items_ok key f acc data :
  (∃ t, sum_items key f acc data = Ok t)
  ↔ forallb (λ s, numeric (f s)) data = true.
Proof.
  revert acc. induction data as [|s data IH]; intros acc; simpl.
  - split; [done | by exists acc].
  - destruct (f s) as [[|b|z|t]|]; simpl;
      try (split; [by intros [? ?] | done]); apply IH.
Qed.

Lemma forallb_elem_of {A} (f : A → bool) l :
  forallb f l = true ↔ ∀ x, x ∈ l → f x = true.
Proof. rewrite forallb_forall. by setoid_rewrite list_elem_of_In. Qed.

Lemma count_explicit_ok acc data :
  (∃ n, count_explicit acc data = Ok n)
  ↔ ∀ s, s ∈ data → present (explicit s) = true.
Proof.
  revert acc. induction data as [|s data IH]; intros acc; simpl.
  - split; [by intros _ s ?%elem_of_nil | by exists acc].
  - destruct (explicit s) as [v|] eqn:E; simpl.
    + rewrite IH. split.
      * intros H s' [->|?]%elem_of_cons; [by rewrite E | auto].
      * intros H s' Hs'. apply H. by right.
    + split; [by intros [? ?]|]. intros H.
      specialize (H s (list_elem_of_here _ _)). by rewrite E in H.
Qed.

Lemma foldM_ok {A S} (f : S → A → result S) (P : A → Prop) s l :
  (∀ s a, (∃ s', f s a = Ok s') ↔ P a) →
  (∃ s', foldM f s l = Ok s') ↔ ∀ a, a ∈ l → P a.
Proof.
  intros Hf. revert s. induction l as [|a l IH]; intros s; simpl.
  - split; [by intros _ a ?%elem_of_nil | by exists s].
  - split.
    + intros (s' & (s1 & H1 & H2)%bind_Ok) a' [->|Ha']%elem_of_cons.
      * apply (Hf s). by exists s1.
      * eapply IH; [|done]. by exists s'.
    + intros H. destruct (proj2 (Hf s a)) as (s1 & ->); [apply H; by left|].
      simpl. apply IH. intros a' Ha'. apply H. by right.
Qed.

Lemma mapM_ok {A B} (f : A → result B) l :
  (∃ bs, mapM f l = Ok bs) ↔ ∀ a, a ∈ l → ∃ b, f a = Ok b.
Proof.
  induction l as [|a l IH]; simpl.
  - split; [by intros _ a ?%elem_of_nil | by exists []].
  - split.
    + intros (bs & (b & Hb & (bs' & Hbs & _)%bind_Ok)%bind_Ok) a' [->|Ha']%elem_of_cons.
      * by exists b.
      * apply IH; [by exists bs'|done].
    + intros H. destruct (H a) as (b & ->); [by left|]. simpl.
      destruct (proj2 IH) as (bs & ->); [|by eexists].
      intros a' Ha'. apply H. by right.
Qed.

Lemma bucket_ok pop : (∃ k, bucket pop = Ok k) ↔ numeric (Some pop) = true.
Proof.
  unfold bucket, py_le. destruct pop as [|b|z|t]; simpl;
    try (split; [by intros [? ?] | done]).
  - split; [done|intros _]. destruct b; by eexists.
  - split; [done|intros _].
    destruct (z <=? 20), (z <=? 40), (z <=? 60), (z <=? 80); by eexists.
Qed.

Lemma count_popularity_ok ranges s :
  (∃ r, count_popularity ranges s = Ok r) ↔ numeric (popularity s) = true.
Proof.
  unfold count_popularity. destruct (popularity s) as [pop|].
  - pose proof (bucket_ok pop) as Hb. split.
    + simpl. intros (r & (k & Hk & _)%bind_Ok). apply Hb. by exists k.
    + intros (k & Hk)%Hb. simpl. rewrite Hk. by eexists.
  - split; [by intros [? ?] | done].
Qed.

Lemma stat_artists_ok s :
  (∃ l, stat_artists s = Ok l) ↔ present (artist_names s) = true.
Proof.
  unfold stat_artists. destruct (artist_names s); simpl.
  - split; [done | by eexists].
  - split; [by intros [? ?] | done].
Qed.

Lemma release_year_ok s :
  (∃ ys, release_year s = Ok ys) ↔ sliceable (album_release_date s) = true.
Proof.
  unfold release_year. destruct (album_release_date s) as [[|[]|z|t]|]; simpl;
    try (split; [done | by eexists]); try (split; [by intros [? ?] | done]).
  - destruct (z =? 0); simpl; [split; [done|by eexists]|].
    split; [by intros [? ?] | done].
  - destruct (bool_decide (t = [])); simpl; split; try done; by eexists.
Qed.

Lemma item_ok key field :
  (∃ v, item key field = Ok v) ↔ present field = true.
Proof.
  destruct field; simpl; [split; [done|by eexists]|].
  split; [by intros [? ?] | done].
Qed.

Lemma true_div_ok a b : b ≠ 0 → true_div a b = Ok (Qmake a (Z.to_pos b)).
Proof. intros H. unfold true_div. by destruct (Z.eqb_spec b 0). Qed.

Lemma mean_ok key f data :
  (∃ q, (if (0 <? length data)%nat
         then total ← sum_items key f 0 data;
              true_div total (Z.of_nat (length data))
         else Ok 0%Q) = Ok q)
  ↔ ∀ s, s ∈ data → numeric (f s) = true.
Proof.
  rewrite <- forallb_elem_of, <- (sum_items_ok key f 0).
  destruct data as [|s0 data]; [simpl; split; by eexists|].
  change (0 <? length (s0 :: data))%nat with true. cbv iota. split.
  - intros (q & (t & Ht & _)%bind_Ok). by exists t.
  - intros (t & ->). cbn [mbind result_bind].
    rewrite true_div_ok by (simpl; lia). by eexists.
Qed.

Lemma all_artists_ok data :
  (∃ l, all_artists data = Ok l)
  ↔ ∀ s, s ∈ data → present (artist_names s) = true.
Proof.
  unfold all_artists. apply foldM_ok. intros acc s.
  rewrite <- stat_artists_ok. split.
  - intros (acc' & (l & Hl & _)%bind_Ok). by exists l.
  - intros (l & ->). by eexists.
Qed.

Lemma popularity_histogram_ok data :
  (∃ r, popularity_histogram data = Ok r)
  ↔ ∀ s, s ∈ data → numeric (popularity s) = true.
Proof.
  unfold popularity_histogram. apply foldM_ok. intros r s.
  apply count_popularity_ok.
Qed.



(** ** What the statistics payload holds *)

Lemma get_statistics_inv py_int data st :
  get_statistics py_int data = Ok st →
  ∃ dur avgp avgd ec artists albums years ranges pct,
    sum_items "duration_ms" duration_ms 0 data = Ok dur
    ∧ (if (0 <? length data)%nat
       then total ← sum_items "popularity" popularity 0 data;
            true_div total (Z.of_nat (length data))
       else Ok 0%Q) = Ok avgp
    ∧ count_explicit 0 data = Ok ec
    ∧ all_artists data = Ok artists
    ∧ mapM (λ s, item "album_name" (album_name s)) data = Ok albums
    ∧ mapM release_year data = Ok years
    ∧ popularity_histogram data = Ok ranges
    ∧ (if (0 <? length data)%nat
       then ratio ← true_div (Z.of_nat ec) (Z.of_nat (length data));
            Ok (Qmult ratio 100)
       else Ok 0%Q) = Ok pct
    ∧ st = Statistics.mk (length data) (Qmake dur 3600000) avgp avgd ec pct
             (length (Counter artists)) (length (Counter albums))
             (most_common 10 (Counter artists))
             (most_common 10 (Counter albums))
             (sorted_items (foldl (count_decade py_int) [] (concat years)))
             ranges.
Proof.
  unfold get_statistics. cbv zeta. intros H.
  apply bind_Ok in H as (dur & Hdur & H).
  apply bind_Ok in H as (hours & Hhours & H).
  apply bind_Ok in H as (avgp & Havgp & H).
  apply bind_Ok in H as (avgd & Havgd & H).
  apply bind_Ok in H as (ec & Hec & H).
  apply bind_Ok in H as (artists & Hart & H).
  apply bind_Ok in H as (albums & Halb & H).
  apply bind_Ok in H as (years & Hyears & H).
  apply bind_Ok in H as (ranges & Hr & H).
  apply bind_Ok in H as (pct & Hpct & H).
  injection H as <-. rewrite true_div_ok in Hhours by done.
  injection Hhours as <-.
  exists dur, avgp, avgd, ec, artists, albums, years, ranges, pct.
  by split_and!.
Qed.

Lemma count_explicit_value acc data n :
  count_explicit acc data = Ok n →
  n = (acc + length (List.filter flagged data))%nat.
Proof.
  revert acc. induction data as [|s data IH]; intros acc; simpl.
  - intros [= <-]. lia.
  - unfold flagged at 1. destruct (explicit s) as [v|]; simpl; [|done].
    intros ->%IH. destruct (truthy v); simpl; lia.
Qed.

Lemma counter_add_length k c :
  (length c ≤ length (counter_add k c) ≤ S (length c))%nat.
Proof.
  induction c as [|[k' n] c IH]; simpl; [lia|].
  destruct (py_eqb k k'); simpl; lia.
Qed.

Lemma Counter_from_length c xs :
  (length c ≤ length (foldl (λ c k, counter_add k c) c xs)
   ≤ length c + length xs)%nat.
Proof.
  revert c. induction xs as [|x xs IH]; intros c; simpl; [lia|].
  pose proof (IH (counter_add x c)). pose proof (counter_add_length x c). lia.
Qed.

Lemma Counter_length_pos xs : xs ≠ [] → (0 < length (Counter xs))%nat.
Proof.
  destruct xs as [|x xs]; [done|]. intros _. unfold Counter. simpl.
  pose proof (Counter_from_length [(x, 1%nat)] xs). simpl in *. lia.
Qed.

Lemma mapM_length {A B} (f : A → result B) l bs :
  mapM f l = Ok bs → length bs = length l.
Proof. intros H%mapM_Forall2. symmetry. by eapply Forall2_length. Qed.



Lemma sum_items_bounds key f lo hi acc data t :
  (∀ s, s ∈ data → ∃ z, f s = Some (PInt z) ∧ lo ≤ z ≤ hi) →
  sum_items key f acc data = Ok t →
  acc + lo * Z.of_nat (length data) ≤ t ≤ acc + hi * Z.of_nat (length data).
Proof.
  revert acc. induction data as [|s data IH]; intros acc Hall; simpl.
  - intros [= <-]. lia.
  - destruct (Hall s) as (z & -> & Hz); [by left|]. simpl. intros Ht.
    assert (∀ s', s' ∈ data → ∃ z, f s' = Some (PInt z) ∧ lo ≤ z ≤ hi) as Hall'
      by (intros s' Hs'; apply Hall; by right).
    pose proof (IH _ Hall' Ht). lia.
Qed.

Lemma sum_items_nonneg key f acc data t :
  (∀ s, s ∈ data → ∃ z, f s = Some (PInt z) ∧ 0 ≤ z) →
  sum_items key f acc data = Ok t → acc ≤ t.
Proof.
  revert acc. induction data as [|s data IH]; intros acc Hall; simpl.
  - intros [= <-]. lia.
  - destruct (Hall s) as (z & -> & Hz); [by left|]. simpl. intros Ht.
    assert (∀ s', s' ∈ data → ∃ z, f s' = Some (PInt z) ∧ 0 ≤ z) as Hall'
      by (intros s' Hs'; apply Hall; by right).
    pose proof (IH _ Hall' Ht). lia.
Qed.



(** ** The decade histogram *)

Lemma pystr_ltb_irrefl a : pystr_ltb a a = false.
Proof.
  induction a as [|x a IH]; simpl; [done|].
  by rewrite N.ltb_irrefl, N.eqb_refl, IH.
Qed.

Lemma pystr_ltb_asym a b : pystr_ltb a b = true → pystr_ltb b a = false.
Proof.
  revert b. induction a as [|x a IH]; intros [|y b]; simpl; try done.
  destruct (N.ltb_spec x y), (N.ltb_spec y x), (N.eqb_spec x y),
    (N.eqb_spec y x); simpl; try done; try lia.
  apply IH.
Qed.

Lemma pystr_ltb_total a b :
  pystr_ltb a b = false → a ≠ b → pystr_ltb b a = true.
Proof.
  revert b. induction a as [|x a IH]; intros [|y b]; simpl; try done.
  destruct (N.ltb_spec x y), (N.ltb_spec y x), (N.eqb_spec x y),
    (N.eqb_spec y x); simpl; try done; try lia.
  intros Hlt Hne. apply IH; [done|]. congruence.
Qed.

Lemma entry_ltb_asym x y : entry_ltb x y = true → entry_ltb y x = false.
Proof.
  unfold entry_ltb. destruct x as [k n], y as [k' n']; simpl.
  destruct (pystr_ltb k k') eqn:E; simpl.
  - intros _. rewrite (pystr_ltb_asym _ _ E). simpl.
    case_bool_decide; [subst; by rewrite pystr_ltb_irrefl in E|done].
  - case_bool_decide as Ek; simpl; [|done]. subst.
    rewrite pystr_ltb_irrefl, bool_decide_eq_true_2 by done. simpl.
    intros H%Nat.ltb_lt. apply Nat.ltb_ge. lia.
Qed.

Lemma insert_asc_perm x l : insert_asc x l ≡ₚ x :: l.
Proof.
  induction l as [|y l IH]; simpl; [done|].
  case_match; [|done]. rewrite IH. apply perm_swap.
Qed.

Lemma sorted_items_perm l : sorted_items l ≡ₚ l.
Proof.
  induction l as [|x l IH]; simpl; [done|]. by rewrite insert_asc_perm, IH.
Qed.

Lemma insert_asc_sorted x l :
  Sorted (λ a b, entry_ltb b a = false) l →
  Sorted (λ a b, entry_ltb b a = false) (insert_asc x l).
Proof.
  induction 1 as [|y l Hl IH Hy]; simpl; [by repeat constructor|].
  destruct (entry_ltb y x) eqn:E.
  - constructor; [done|].
    destruct Hy as [|z l' Hz]; simpl.
    + constructor. by apply entry_ltb_asym.
    + destruct (entry_ltb z x); constructor; [done|by apply entry_ltb_asym].
  - constructor; [by constructor|]. by constructor.
Qed.

Lemma sorted_items_sorted l :
  Sorted (λ a b, entry_ltb b a = false) (sorted_items l).
Proof. induction l; simpl; [constructor|by apply insert_asc_sorted]. Qed.

Lemma sorted_keys_strict (l : list (pystr * nat)) :
  NoDup l.*1 → Sorted (λ a b, entry_ltb b a = false) l →
  Sorted (λ a b, pystr_ltb a.1 b.1 = true) l.
Proof.
  induction 2 as [|x l Hl IH Hx]; [constructor|].
  csimpl in H. apply NoDup_cons in H as [Hnot Hnd].
  constructor; [by apply IH|].
  destruct Hx as [|y l' Hy]; constructor.
  unfold entry_ltb in Hy. apply orb_false_iff in Hy as [Hy _].
  apply pystr_ltb_total; [done|]. intros E. apply Hnot. rewrite <- E.
  csimpl. left.
Qed.

Lemma dict_alter_sum k (d : dict nat) :
  k ∈ d.*1 → sum_list (dict_alter S k d).*2 = S (sum_list d.*2).
Proof.
  induction d as [|[k' n] d IH]; csimpl; [by intros ?%elem_of_nil|].
  case_decide; csimpl; [done|].
  intros [?|Hin]%elem_of_cons; [done|]. rewrite IH by done. lia.
Qed.

(** What every entry of the decade counter satisfies. *)
Lemma count_decade_step py_int d year :
  NoDup d.*1 →
  Forall (λ x, (0 < x.2)%nat ∧ ∃ y, x.1 = lit (pretty (y / 10 * 10)) ++ lit "s") d →
  sum_list (count_decade py_int d year).*2
  = ((if py_int year is Some _ then 1 else 0) + sum_list d.*2)%nat
  ∧ NoDup (count_decade py_int d year).*1
  ∧ Forall (λ x, (0 < x.2)%nat
                 ∧ ∃ y, x.1 = lit (pretty (y / 10 * 10)) ++ lit "s")
           (count_decade py_int d year).
Proof.
  intros Hnd Hall. unfold count_decade. destruct (py_int year) as [y|]; [|done].
  set (k := lit (pretty (y / 10 * 10)) ++ lit "s"). cbv zeta. split_and!.
  - rewrite dict_alter_sum by apply dict_setdefault_mem.
    rewrite dict_setdefault_unfold. case_decide; [done|].
    rewrite fmap_app, sum_list_with_app.
    change (sum_list [(k, 0%nat)].*2) with 0%nat. by rewrite Nat.add_0_r.
  - rewrite dict_alter_keys. by apply dict_setdefault_NoDup.
  - apply (dict_alter_Forall
             (λ x, (x.1 ≠ k → 0 < x.2)%nat
                   ∧ ∃ y, x.1 = lit (pretty (y / 10 * 10)) ++ lit "s")).
    + by apply dict_setdefault_NoDup.
    + intros v [_ Hk]. split; [simpl; lia|done].
    + intros x Hx [Hpos Hk]. split; auto.
    + apply dict_setdefault_Forall.
      * split; [done|]. by exists y.
      * eapply Forall_impl; [exact Hall|]. intros x [? ?]. by split.
Qed.

Lemma count_decades_spec py_int d years :
  NoDup d.*1 →
  Forall (λ x, (0 < x.2)%nat ∧ ∃ y, x.1 = lit (pretty (y / 10 * 10)) ++ lit "s") d →
  sum_list (foldl (count_decade py_int) d years).*2
  = (length (filter (λ y, is_Some (py_int y)) years) + sum_list d.*2)%nat
  ∧ NoDup (foldl (count_decade py_int) d years).*1
  ∧ Forall (λ x, (0 < x.2)%nat
                 ∧ ∃ y, x.1 = lit (pretty (y / 10 * 10)) ++ lit "s")
           (foldl (count_decade py_int) d years).
Proof.
  revert d. induction years as [|year years IH]; intros d Hnd Hall; simpl.
  - by split_and!.
  - destruct (count_decade_step py_int d year Hnd Hall) as (Hs & Hnd' & Hall').
    destruct (IH _ Hnd' Hall') as (-> & ? & ?). split_and!; [|done..].
    unfold pystr in *. rewrite Hs, filter_cons. destruct (py_int year); simpl.
    + lia.
    + lia.
Qed.

Lemma release_years_dated py_int data years :
  mapM release_year data = Ok years →
  length (filter (λ y, is_Some (py_int y)) (concat years))
  = length (List.filter (dated py_int) data).
Proof.
  revert years. induction data as [|s data IH]; intros years; simpl.
  - by intros [= <-].
  - intros (ys & Hys & (yss & Hyss & [= <-])%bind_Ok)%bind_Ok.
    simpl. rewrite filter_app, length_app, (IH _ Hyss). f_equal.
    unfold release_year in Hys. unfold dated.
    destruct (album_release_date s) as [[|[]|z|t]|]; simpl in Hys; try done;
      try (by injection Hys as <-).
    + destruct (z =? 0); simpl in Hys; [by injection Hys as <-|done].
    + unfold nonempty. simpl. destruct (bool_decide (t = [])); simpl in *;
        injection Hys as <-; [done|].
      rewrite filter_cons. case_bool_decide.
      * by rewrite decide_True.
      * by rewrite decide_False.
Qed.

(** X12. The decade histogram of a statistics payload counts exactly the
    records whose release date is a non-empty string with a first-four
    prefix that [int] reads, so its counts add up to at most the number of
    records; every key has the form "<decade>s" for a multiple of ten, no
    key occurs twice, every count is positive, and the entries come in
    strictly ascending order of the key. *)
Theorem decade_histogram (py_int : pystr → option Z) (data : list song)
    (st : Statistics.t) (Hrun : get_statistics py_int data = Ok st) :
  sum_list (Statistics.decade_distribution st).*2
  = length (List.filter (dated py_int) data)
  ∧ (sum_list (Statistics.decade_distribution st).*2
     ≤ Statistics.total_songs st)%nat
  ∧ NoDup (Statistics.decade_distribution st).*1
  ∧ Forall (λ x, (0 < x.2)%nat
                 ∧ ∃ y, x.1 = lit (pretty (y / 10 * 10)) ++ lit "s")
           (Statistics.decade_distribution st)
  ∧ Sorted (λ a b, pystr_ltb a.1 b.1 = true)
           (Statistics.decade_distribution st).
Proof.
  apply get_statistics_inv in Hrun
    as (dur & avgp & avgd & ec & artists & albums & years & ranges & pct
        & _ & _ & _ & _ & _ & Hyears & _ & _ & ->).
  cbn [Statistics.decade_distribution Statistics.total_songs].
  destruct (count_decades_spec py_int [] (concat years))
    as (Hsum & Hnd & Hall); [constructor..|].
  pose proof (sorted_items_perm (foldl (count_decade py_int) [] (concat years)))
    as Hperm.
  assert (sum_list (sorted_items
                      (foldl (count_decade py_int) [] (concat years))).*2
          = length (List.filter (dated py_int) data)) as Hs.
  { rewrite Hperm. unfold pystr in *.
    rewrite Hsum, (release_years_dated _ _ _ Hyears). simpl. lia. }
  assert (NoDup (sorted_items
                   (foldl (count_decade py_int) [] (concat years))).*1) as Hnd'.
  { by rewrite Hperm. }
  split_and!; [done| |done| |].
  - rewrite Hs. apply filter_length_le.
  - by rewrite Hperm.
  - apply sorted_keys_strict; [done|apply sorted_items_sorted].
Qed.

Lemma decade_histogram_witness :
  ∃ st, get_statistics (λ _, Some 2019) [track "A" "X" 10; track "B" "Y" 93]
        = Ok st
        ∧ sum_list (Statistics.decade_distribution st).*2 = 2%nat.
Proof.
  eexists. split; [vm_compute; reflexivity|].
  refine (proj1 (decade_histogram (λ _, Some 2019)
                   [track "A" "X" 10; track "B" "Y" 93] _ _)).
  vm_compute. reflexivity.
Defined.

(** ** The top lists *)

Section TopFacts.
Context {A : Type} (key : A → nat).

Lemma top_k_sorted K l : StronglySorted (desc key) (top_k key K l).
Proof.
  pose proof (sorted_desc_sorted key l) as H.
  rewrite <- (take_drop K) in H. by apply StronglySorted_app_1_l in H.
Qed.

Lemma top_k_dominates K l x y :
  x ∈ top_k key K l → y ∈ l → y ∉ top_k key K l → (key y ≤ key x)%nat.
Proof.
  intros Hx Hy Hny. unfold top_k in *.
  pose proof (sorted_desc_sorted key l) as H.
  rewrite <- (take_drop K) in H.
  rewrite <- (sorted_desc_perm key l), <- (take_drop K), elem_of_app in Hy.
  destruct Hy as [?|Hy]; [done|].
  apply (StronglySorted_app_1_elem_of _ _ _ _ _ H Hx Hy).
Qed.
End TopFacts.

Lemma mapM_item key (f : song → option pyval) data vs :
  mapM (λ s, item key (f s)) data = Ok vs → f <$> data = Some <$> vs.
Proof.
  revert vs. induction data as [|s data IH]; intros vs; simpl.
  - by intros [= <-].
  - intros (v & Hv & (vs' & Hvs & [= <-])%bind_Ok)%bind_Ok.
    csimpl. rewrite (IH _ Hvs). f_equal.
    destruct (f s); simpl in Hv; congruence.
Qed.

(** X13. The top-10 album list of a statistics payload gives each listed
    album name with the exact number of records carrying it, in descending
    order of that number, and no album left out of the list has more
    records than one in it; the same holds for the top-10 artist list over
    the counted tokens. *)
Theorem top_lists_are_top (py_int : pystr → option Z) (data : list song)
    (st : Statistics.t) (Hrun : get_statistics py_int data = Ok st) :
  ∃ artists albums,
    all_artists data = Ok artists
    ∧ album_name <$> data = Some <$> albums
    ∧ (∀ k n, (k, n) ∈ Statistics.top_albums st →
         k ∈ albums ∧ n = length (List.filter (py_eqb k) albums))
    ∧ StronglySorted (desc snd) (Statistics.top_albums st)
    ∧ (∀ x y, x ∈ Statistics.top_albums st → y ∈ Counter albums →
         y ∉ Statistics.top_albums st → (y.2 ≤ x.2)%nat)
    ∧ (∀ k n, (k, n) ∈ Statistics.top_artists st →
         k ∈ artists ∧ n = length (List.filter (py_eqb k) artists))
    ∧ StronglySorted (desc snd) (Statistics.top_artists st)
    ∧ (∀ x y, x ∈ Statistics.top_artists st → y ∈ Counter artists →
         y ∉ Statistics.top_artists st → (y.2 ≤ x.2)%nat).
Proof.
  apply get_statistics_inv in Hrun
    as (dur & avgp & avgd & ec & artists & albums & years & ranges & pct
        & _ & _ & _ & Hart & Halb & _ & _ & _ & ->).
  cbn [Statistics.top_albums Statistics.top_artists].
  exists artists, albums. unfold most_common.
  destruct (Counter_spec albums) as (_ & Hb & _).
  destruct (Counter_spec artists) as (_ & Ha & _).
  split_and!.
  - done.
  - by eapply mapM_item.
  - intros k n Hin%top_k_subseteq. by apply Hb.
  - apply top_k_sorted.
  - intros x y. apply top_k_dominates.
  - intros k n Hin%top_k_subseteq. by apply Ha.
  - apply top_k_sorted.
  - intros x y. apply top_k_dominates.
Qed.

Lemma top_lists_are_top_witness :
  ∃ st, get_statistics (λ _, None)
          [track "A" "X" 10; track "B" "Y" 93; track "C" "Y" 5] = Ok st
        ∧ StronglySorted (desc snd) (Statistics.top_albums st).
Proof.
  eexists. split; [vm_compute; reflexivity|].
  destruct (top_lists_are_top (λ _, None)
              [track "A" "X" 10; track "B" "Y" 93; track "C" "Y" 5] _
              eq_refl) as (artists & albums & _ & _ & _ & H & _).
  exact H.
Defined.

(** * Properties of [export.py] *)

(** ** Joined artist names, split again *)

Lemma split_past_name n rest :
  contains comma_sep n = false →
  split_go comma_sep 0 (n ++ comma_sep ++ rest) = n :: split_go comma_sep 0 rest.
Proof.
  induction n as [|c n IH]; [done|].
  intros [Hc Hn]%orb_false_iff.
  change ((c :: n) ++ comma_sep ++ rest) with (c :: (n ++ comma_sep ++ rest)).
  cbn [split_go].
  assert (starts_with comma_sep (c :: n ++ comma_sep ++ rest) = false) as ->.
  { destruct n as [|y n]; [|exact Hc].
    change (starts_with comma_sep (c :: [] ++ comma_sep ++ rest))
      with ((44 =? c)%N && false). apply andb_false_r. }
  by rewrite (IH Hn).
Qed.

Lemma split_whole_name n :
  contains comma_sep n = false → split_go comma_sep 0 n = [n].
Proof.
  induction n as [|c n IH]; [done|].
  intros [Hc Hn]%orb_false_iff. cbn [split_go]. rewrite Hc.
  by rewrite (IH Hn).
Qed.

Lemma split_join names :
  names ≠ [] → Forall (λ n, contains comma_sep n = false) names →
  split comma_sep (join comma_sep names) = names.
Proof.
  intros Hne Hall. unfold split.
  induction Hall as [|x l Hx Hl IH]; [done|].
  destruct l as [|y l]; [by apply split_whole_name|].
  change (join comma_sep (x :: y :: l))
    with (x ++ comma_sep ++ join comma_sep (y :: l)).
  rewrite split_past_name by done. f_equal. by apply IH.
Qed.

(** X14. The statistics read back what the exporter wrote: for a record
    exported from a track with at least one artist, none of whose names
    contains ", ", the tokens counted by [get_statistics] are exactly the
    track's artist names, in order.  A track without artists gives the one
    empty token. *)
Theorem exported_names_read_back (s : song) (names : list pystr)
    (Hfield : artist_names s = Some (PStr (artist_names_field names))) :
  (names ≠ [] → Forall (λ n, contains comma_sep n = false) names →
   stat_artists s = Ok (PStr <$> names))
  ∧ (names = [] → stat_artists s = Ok [PStr []]).
Proof.
  unfold stat_artists. rewrite Hfield. simpl. split.
  - intros Hne Hall. unfold artist_names_field. by rewrite split_join.
  - by intros ->.
Qed.

Lemma exported_names_read_back_witness :
  stat_artists (track "Ann Lee, Bo" "X" 1) = Ok [PStr (lit "Ann Lee"); PStr (lit "Bo")].
Proof.
  refine (proj1 (exported_names_read_back (track "Ann Lee, Bo" "X" 1)
                   [lit "Ann Lee"; lit "Bo"] eq_refl) _ _).
  - done.
  - repeat constructor.
Defined.

Lemma contains_past p rest : contains comma_sep (p ++ comma_sep ++ rest) = true.
Proof.
  induction p as [|c p IH]; [done|].
  change ((c :: p) ++ comma_sep ++ rest) with (c :: (p ++ comma_sep ++ rest)).
  cbn [contains]. rewrite IH. apply orb_true_r.
Qed.

Lemma filter_nonempty_id (l : list pystr) :
  Forall (λ n, n ≠ []) l → List.filter nonempty l = l.
Proof.
  induction 1 as [|x l Hx _ IH]; [done|]. simpl.
  rewrite (proj2 (nonempty_spec x) Hx). by rewrite IH.
Qed.

Lemma fmap_strip_id (l : list pystr) :
  Forall (λ n, strip n = n) l → strip <$> l = l.
Proof. induction 1 as [|x l Hx _ IH]; [done|]. csimpl. by rewrite Hx, IH. Qed.

(** X15. The graph attributes an exported record to the track's artists:
    when the track has at least one artist and every name is non-empty,
    trimmed and free of ", ", and a sole artist's name is free of "; ", both
    loops of the graph route file the record under exactly those names. *)
Theorem exported_names_attributed (s : song) (names : list pystr)
    (Hfield : artist_names s = Some (PStr (artist_names_field names)))
    (Hne : names ≠ [])
    (Hnames : Forall (λ n, contains comma_sep n = false ∧ strip n = n ∧ n ≠ [])
                     names)
    (Hsole : ∀ n, names = [n] → contains semi_sep n = false) :
  song_artists s = names ∧ album_artists s = names.
Proof.
  rewrite (first_pass_normalizes _ _ Hfield),
    (second_pass_normalizes _ _ Hfield).
  assert (normalize_spec (artist_names_field names) = names) as ->; [|done].
  assert (Forall (λ n, contains comma_sep n = false) names) as Hc
    by (eapply Forall_impl; [exact Hnames|]; by intros n (? & _)).
  assert (Forall (λ n, strip n = n) names) as Hs
    by (eapply Forall_impl; [exact Hnames|]; by intros n (_ & ? & _)).
  assert (Forall (λ n, n ≠ []) names) as Hn
    by (eapply Forall_impl; [exact Hnames|]; by intros n (_ & _ & ?)).
  unfold normalize_spec, artist_names_field.
  destruct names as [|x [|y l]]; [done| |].
  - simpl. apply Forall_inv in Hc, Hs, Hn.
    rewrite Hc, (Hsole x eq_refl). simpl. rewrite !Hs.
    by rewrite (proj2 (nonempty_spec x) Hn).
  - change (join comma_sep (x :: y :: l))
      with (x ++ comma_sep ++ join comma_sep (y :: l)).
    rewrite contains_past.
    change (x ++ comma_sep ++ join comma_sep (y :: l))
      with (join comma_sep (x :: y :: l)).
    rewrite split_join by done.
    rewrite fmap_strip_id by done. by apply filter_nonempty_id.
Qed.

Lemma exported_names_attributed_witness :
  song_artists (track "Ann Lee, Bo" "X" 1) = [lit "Ann Lee"; lit "Bo"]
  ∧ album_artists (track "Ann Lee, Bo" "X" 1) = [lit "Ann Lee"; lit "Bo"].
Proof.
  apply (exported_names_attributed (track "Ann Lee, Bo" "X" 1)
           [lit "Ann Lee"; lit "Bo"] eq_refl).
  - done.
  - repeat constructor; done.
  - intros n [=].
Defined.

(** ** Fetching the library *)

Section FetchFacts.
Context {A : Type} (sp : nat → nat → page A) (library : list A).
Hypothesis Hitems : ∀ offset, items (sp 50%nat offset) = take 50 (drop offset library).
Hypothesis Hnext :
  ∀ offset, next (sp 50%nat offset) = None → (length library ≤ offset + 50)%nat.

Lemma fetch_loop_complete fuel offset :
  (offset < length library + 50)%nat →
  (length library + 50 ≤ offset + 50 * fuel)%nat →
  fetch_loop sp fuel (take offset library) offset = Some library.
Proof.
  revert offset. induction fuel as [|fuel IH]; intros offset Ho Hfuel; [lia|].
  cbn [fetch_loop]. cbv zeta. rewrite Hitems. case_bool_decide as E.
  - apply take_nil_inv in E as [?|E%drop_nil_inv]; [done|].
    by rewrite take_ge.
  - rewrite take_take_drop.
    assert (offset < length library)%nat as Hlt.
    { destruct (decide (offset < length library)%nat) as [|Hge]; [done|].
      exfalso. apply E. rewrite drop_ge by lia. done. }
    destruct (next (sp 50%nat offset)) as [url|] eqn:En.
    + apply IH; lia.
    + apply Hnext in En. by rewrite take_ge.
Qed.

(** X16. Against a service that answers each request with the slice of 50
    records at the offset asked for, and reports no next page only on the
    last slice, [fetch_all_liked_songs] returns the whole library, every
    record once and in order; one request more than the number of full
    pages is enough. *)
Theorem fetch_all_complete (fuel : nat) :
  (length library + 50 ≤ 50 * fuel)%nat →
  fetch_all_liked_songs sp fuel = Some library.
Proof.
  intros Hfuel. unfold fetch_all_liked_songs.
  rewrite <- (take_0 library) at 1. apply fetch_loop_complete; lia.
Qed.
End FetchFacts.

Lemma fetch_all_complete_witness :
  fetch_all_liked_songs (paging (seq 0 120)) 4 = Some (seq 0 120).
Proof.
  apply (fetch_all_complete (paging (seq 0 120)) (seq 0 120)).
  - intros offset. reflexivity.
  - intros offset. unfold paging. cbn [next].
    destruct (Nat.ltb_spec (offset + 50) (length (seq 0 120))); [done|].
    intros _. lia.
  - vm_compute. lia.
Defined.

(** ** The summary of [main] and the statistics *)

Lemma counter_add_summary k (d : dict nat) :
  counter_add (PStr k) ((λ x, (PStr x.1, x.2)) <$> d)
  = (λ x, (PStr x.1, x.2)) <$> summary_count d k.
Proof.
  unfold summary_count. induction d as [|[k' n] d IH]; csimpl; [done|].
  destruct (decide (k = k')) as [->|Hne].
  - rewrite bool_decide_eq_true_2 by done. csimpl. by rewrite Nat.add_1_r.
  - rewrite bool_decide_eq_false_2 by done. csimpl. by rewrite IH.
Qed.

Lemma Counter_summary c (d : dict nat) toks :
  c = (λ x, (PStr x.1, x.2)) <$> d →
  foldl (λ c k, counter_add k c) c (PStr <$> toks)
  = (λ x, (PStr x.1, x.2)) <$> foldl summary_count d toks.
Proof.
  revert c d. induction toks as [|t toks IH]; intros c d ->; csimpl; [done|].
  apply IH. apply counter_add_summary.
Qed.

Lemma sorted_desc_fmap {A B} (f : A → B) (key : B → nat) l :
  sorted_desc key (f <$> l) = f <$> sorted_desc (key ∘ f) l.
Proof.
  induction l as [|x l IH]; csimpl; [done|]. rewrite IH.
  generalize (sorted_desc (key ∘ f) l). intros l'.
  induction l' as [|y l' IH']; csimpl; [done|].
  destruct (key (f x) <? key (f y))%nat; csimpl; [by rewrite IH'|done].
Qed.

Lemma summary_counts_tokens d data counts :
  foldM (λ counts s,
           artists ← summary_artists s; Ok (foldl summary_count counts artists))
        d data = Ok counts →
  (∀ s, s ∈ data → ∃ t, artist_names s = Some (PStr t))
  ∧ counts
    = foldl summary_count d
        (flat_map (λ s, split comma_sep (artist_field s)) data).
Proof.
  revert d. induction data as [|s data IH]; intros d; simpl.
  - intros [= <-]. split; [by intros s ?%elem_of_nil|done].
  - intros (d1 & (toks & Htoks & [= <-])%bind_Ok & Hrest)%bind_Ok.
    destruct (IH _ Hrest) as [Hstr ->].
    unfold summary_artists in Htoks.
    destruct (artist_names s) as [[| | |t]|] eqn:E; simpl in Htoks; try done.
    injection Htoks as <-. split.
    + intros s' [->|Hs']%elem_of_cons; [by exists t|auto].
    + unfold artist_field at 2. rewrite E. by rewrite foldl_app.
Qed.

(** X17. The exporter's summary and the statistics route agree: whenever
    [main]'s top-10 artist count succeeds on a list of records, every
    artist-names field is a string, and any statistics payload for the same
    records lists the same artists with the same counts in the same
    order. *)
Theorem summary_matches_statistics (data : list song) (top : list (pystr * nat))
    (Hsum : summary_top_artists data = Ok top) :
  (∀ s, s ∈ data → ∃ t, artist_names s = Some (PStr t))
  ∧ ∀ py_int st,
      get_statistics py_int data = Ok st →
      Statistics.top_artists st = (λ x, (PStr x.1, x.2)) <$> top.
Proof.
  unfold summary_top_artists in Hsum.
  apply bind_Ok in Hsum as (counts & Hcounts & [= <-]).
  apply summary_counts_tokens in Hcounts as [Hstr ->]. split; [done|].
  intros py_int st (_ & _ & artists & Ha & ->)%get_statistics_fields.
  unfold all_artists in Ha. rewrite all_artists_strings in Ha by done.
  injection Ha as <-. unfold most_common, top_k, Counter, comma_tokens.
  rewrite (Counter_summary _ [] _ eq_refl), sorted_desc_fmap, fmap_take.
  done.
Qed.

Lemma summary_matches_statistics_witness :
  ∃ t, artist_names (track "A, B" "X" 10) = Some (PStr t).
Proof.
  refine (proj1 (summary_matches_statistics
                   [track "A, B" "X" 10; track "A" "X" 30] _ _)
                (track "A, B" "X" 10) _).
  - vm_compute. reflexivity.
  - left.
Defined.

(** ** Splitting loses nothing *)

Lemma split_go_nonempty sep skip s : split_go sep skip s ≠ [].
Proof.
  revert skip. induction s as [|c s IH]; intros skip; simpl; [done|].
  destruct skip; [|apply IH].
  destruct (starts_with sep (c :: s)); [done|].
  specialize (IH 0%nat). by destruct (split_go sep 0 s).
Qed.

Lemma join_push sep c l : l ≠ [] → join sep (push c l) = c :: join sep l.
Proof. destruct l as [|x [|y l]]; done. Qed.

Lemma join_after_empty sep l : l ≠ [] → join sep ([] :: l) = sep ++ join sep l.
Proof. by destruct l. Qed.

Lemma join_split_bounded n s :
  (length s ≤ n)%nat → join comma_sep (split_go comma_sep 0 s) = s.
Proof.
  revert s. induction n as [|n IH]; intros s Hn.
  - by destruct s; [|simpl in Hn; lia].
  - destruct s as [|c s]; [done|]. cbn [split_go].
    destruct (starts_with comma_sep (c :: s)) eqn:E.
    + destruct s as [|c' s].
      { change (starts_with comma_sep [c]) with ((44 =? c)%N && false) in E.
        by rewrite andb_false_r in E. }
      change (starts_with comma_sep (c :: c' :: s))
        with ((44 =? c)%N && ((32 =? c')%N && true)) in E.
      apply andb_prop in E as [Ec E]. apply andb_prop in E as [Ec' _].
      apply N.eqb_eq in Ec, Ec'. subst c c'.
      change (length comma_sep - 1)%nat with 1%nat. cbn [split_go].
      rewrite join_after_empty by apply split_go_nonempty.
      rewrite IH by (simpl in Hn; lia). done.
    + rewrite join_push by apply split_go_nonempty.
      rewrite IH by (simpl in Hn; lia). done.
Qed.

(** X18. Tokenizing loses nothing: for every record with a string
    artist-names field, [get_statistics] counts at least one token, and the
    tokens joined with ", " are the field again. *)
Theorem tokens_rejoin (s : song) (t : pystr)
    (Hfield : artist_names s = Some (PStr t)) :
  ∃ toks, stat_artists s = Ok (PStr <$> toks)
          ∧ toks ≠ [] ∧ join comma_sep toks = t.
Proof.
  exists (split comma_sep t). unfold stat_artists. rewrite Hfield.
  split_and!; [done|apply split_go_nonempty|].
  by apply (join_split_bounded (length t)).
Qed.

Lemma tokens_rejoin_witness :
  ∃ toks, stat_artists (track "A, , B; C" "X" 1) = Ok (PStr <$> toks)
          ∧ toks ≠ [] ∧ join comma_sep toks = lit "A, , B; C".
Proof.
  exact (tokens_rejoin (track "A, , B; C" "X" 1) (lit "A, , B; C") eq_refl).
Defined.
